(** * Truth-table generator: tokenizer, shunting-yard converter, postfix
      evaluator and table driver of [TrutTableCode.py], embedded in Rocq.

    Python strings are modelled by [string]; a character is a code point
    below 256.  Python lists used as stacks ([operators], [stack]) are lists
    whose head is the top of the stack, i.e. the element [l[-1]]; lists that
    are only appended to ([tokens], [output], [results]) keep the source
    order.  Dictionaries are [gmap]s, sets are [gset]s.  A raised exception
    is the [Raise] outcome of the [result] type. *)

From Stdlib Require Import Ascii String.
From stdpp Require Import gmap strings list sorting.
From Equations Require Import Equations.

Open Scope string_scope.
Open Scope list_scope.

(** ** Exceptions and results *)

Inductive exn : Type :=
| ValueError (msg : string)
| IndexError (msg : string)
| KeyError (key : string)
| TypeError (msg : string).

Inductive result (A : Type) : Type :=
| Ok (a : A)
| Raise (e : exn).
Arguments Ok {A} a.
Arguments Raise {A} e.

Definition bind {A B : Type} (r : result A) (k : A → result B) : result B :=
  match r with
  | Ok a => k a
  | Raise e => Raise e
  end.

Notation "x <-! r ; k" := (bind r (λ x, k))
  (at level 100, r at next level, k at level 200, right associativity).

(** ** Character and string helpers *)

(** [str.upper()] on the text the tokenizer matches, which is ASCII: the
    letters a-z become A-Z; a character that is no such letter is kept. *)
Definition upper_char (c : ascii) : ascii :=
  let n := nat_of_ascii c in
  if (97 <=? n)%nat && (n <=? 122)%nat then ascii_of_nat (n - 32) else c.

Fixpoint upper (s : string) : string :=
  match s with
  | EmptyString => EmptyString
  | String c r => String (upper_char c) (upper r)
  end.

(** The class [\s] of Python's [re] on [str] patterns, for code points
    below 256: TAB, LF, VT, FF, CR, the separators 0x1c-0x1f, space, NEL
    and the no-break space. *)
Definition is_space (c : ascii) : bool :=
  let n := nat_of_ascii c in
  ((9 <=? n)%nat && (n <=? 13)%nat) || ((28 <=? n)%nat && (n <=? 32)%nat)
  || (n =? 133)%nat || (n =? 160)%nat.

(** [strip_prefix p s] is the rest of [s] after the literal [p], when [s]
    starts with [p]. *)
Fixpoint strip_prefix (p s : string) : option string :=
  match p with
  | EmptyString => Some s
  | String a p' =>
      match s with
      | String b s' => if Ascii.eqb a b then strip_prefix p' s' else None
      | EmptyString => None
      end
  end.

(** The longest run of characters satisfying [f] at the start of [s], and
    what follows it. *)
Fixpoint span (f : ascii → bool) (s : string) : string * string :=
  match s with
  | String c r =>
      if f c then let '(run, rest) := span f r in (String c run, rest)
      else (EmptyString, s)
  | EmptyString => (EmptyString, EmptyString)
  end.

Fixpoint mem_char (c : ascii) (cs : string) : bool :=
  match cs with
  | EmptyString => false
  | String d r => Ascii.eqb c d || mem_char c r
  end.

(** ** LogicExpressionParser: the constant tables *)

Inductive func : Type :=
| Fun1 (f : bool → bool)
| Fun2 (f : bool → bool → bool).

Record LogicOperator : Type := { name : string; op_func : func }.

Definition operators : gmap string LogicOperator :=
  list_to_map
    [ ("NOT", {| name := "NOT"; op_func := Fun1 (λ a, negb a) |});
      ("AND", {| name := "AND"; op_func := Fun2 (λ a b, a && b) |});
      ("OR", {| name := "OR"; op_func := Fun2 (λ a b, a || b) |});
      ("IMPLIES", {| name := "IMPLIES"; op_func := Fun2 (λ a b, negb a || b) |});
      ("IFF", {| name := "IFF"; op_func := Fun2 (λ a b, Bool.eqb a b) |}) ].

Definition symbol_map : gmap string string :=
  list_to_map
    [ ("~", "NOT"); ("^", "AND"); ("or", "OR"); ("->", "IMPLIES"); ("<->", "IFF") ].

Definition variables_set : gset string := {[ "P"; "Q"; "R" ]}.

Definition precedence_levels : gmap string nat :=
  list_to_map [ ("NOT", 3); ("AND", 2); ("OR", 2); ("IMPLIES", 1); ("IFF", 1) ].

Inductive assoc : Type := LEFT | RIGHT.

Definition associativity_map : gmap string assoc :=
  list_to_map
    [ ("NOT", RIGHT); ("AND", LEFT); ("OR", LEFT); ("IMPLIES", LEFT); ("IFF", LEFT) ].

Global Instance assoc_eq_dec : EqDecision assoc.
Proof. solve_decision. Defined.

(** ** tokenize_expression *)

Inductive kind : Type :=
| LPAREN | RPAREN | OPERATOR | VARIABLE | CONSTANT | WHITESPACE | UNKNOWN.

(** The regular expressions that occur in [token_spec]. *)
Inductive pattern : Type :=
| Alt (literals : list string)   (* lit1|lit2|..., tried in this order *)
| Class (chars : string)         (* [chars] *)
| Spaces                         (* \s+ *)
| Dot.                           (* . : any character except a newline *)

Definition token_spec : list (kind * pattern) :=
  [ (LPAREN, Alt ["("]);
    (RPAREN, Alt [")"]);
    (OPERATOR, Alt ["<->"; "->"; "~"; "^"; "or"; "AND"; "OR"; "NOT"; "IMPLIES"; "IFF"]);
    (VARIABLE, Class "PQRpqr");
    (CONSTANT, Alt ["TRUE"; "FALSE"]);
    (WHITESPACE, Spaces);
    (UNKNOWN, Dot) ].

(** A match of one pattern at the start of [s]: the matched text and the
    rest of the input. *)
Fixpoint match_alt (literals : list string) (s : string) : option (string * string) :=
  match literals with
  | [] => None
  | lit :: more =>
      match strip_prefix lit s with
      | Some rest => Some (lit, rest)
      | None => match_alt more s
      end
  end.

Definition match_pattern (p : pattern) (s : string) : option (string * string) :=
  match p with
  | Alt literals => match_alt literals s
  | Class chars =>
      match s with
      | String c rest => if mem_char c chars then Some (String c EmptyString, rest) else None
      | EmptyString => None
      end
  | Spaces =>
      match span is_space s with
      | (EmptyString, _) => None
      | (run, rest) => Some (run, rest)
      end
  | Dot =>
      match s with
      | String c rest =>
          if Ascii.eqb c "010"%char then None else Some (String c EmptyString, rest)
      | EmptyString => None
      end
  end.

(** The combined regex [(?P<LPAREN>...)|(?P<RPAREN>...)|...] at the start
    of [s]: the first group that matches wins; [lastgroup] is its name. *)
Fixpoint match_spec (spec : list (kind * pattern)) (s : string)
  : option (kind * string * string) :=
  match spec with
  | [] => None
  | (k, p) :: more =>
      match match_pattern p s with
      | Some (value, rest) => Some (k, value, rest)
      | None => match_spec more s
      end
  end.

Definition match_at (s : string) : option (kind * string * string) :=
  match_spec token_spec s.

Lemma strip_prefix_length p s rest :
  strip_prefix p s = Some rest → String.length s = (String.length p + String.length rest)%nat.
Proof.
  revert s; induction p as [|a p IH]; intros s; simpl.
  - by intros [= ->].
  - destruct s as [|b s]; [done|]. destruct (Ascii.eqb a b); [|done].
    intros H%IH. simpl. lia.
Qed.

Lemma span_length f s run rest :
  span f s = (run, rest) → String.length s = (String.length run + String.length rest)%nat.
Proof.
  revert run rest; induction s as [|c s IH]; intros run rest; simpl.
  - by intros [= <- <-].
  - destruct (f c).
    + destruct (span f s) as [run' rest'] eqn:E. intros [= <- <-].
      simpl. f_equal. by apply IH.
    + by intros [= <- <-].
Qed.

Lemma match_alt_length literals s value rest :
  Forall (λ lit, lit ≠ EmptyString) literals →
  match_alt literals s = Some (value, rest) →
  (String.length rest < String.length s)%nat.
Proof.
  induction 1 as [|lit more Hlit _ IH]; simpl; [done|].
  destruct (strip_prefix lit s) as [r|] eqn:E; [|done].
  intros [= <- <-]. apply strip_prefix_length in E.
  destruct lit; [done|]. simpl in E. lia.
Qed.

Lemma match_at_length s k value rest :
  match_at s = Some (k, value, rest) → (String.length rest < String.length s)%nat.
Proof.
  unfold match_at, token_spec, match_spec.
  repeat match goal with
  | |- context [match_pattern (Alt ?l) s] =>
      let E := fresh "E" in
      destruct (match_pattern (Alt l) s) as [[v r]|] eqn:E;
      [ intros [= <- <- <-]; revert E; apply match_alt_length;
        repeat constructor; done | clear E ]
  | |- context [match_pattern ?p s] =>
      let E := fresh "E" in
      destruct (match_pattern p s) as [[v r]|] eqn:E;
      [ intros [= <- <- <-]; revert E | clear E ]
  end; try done.
  - cbn [match_pattern]. destruct s as [|c s]; [done|].
    destruct (mem_char _ _); [|done]. intros [= <- <-]. simpl. lia.
  - cbn [match_pattern]. destruct (span is_space s) as [run rest'] eqn:E.
    apply span_length in E. destruct run; [done|]. intros [= <- <-].
    simpl in E. lia.
  - cbn [match_pattern]. destruct s as [|c s]; [done|].
    destruct (Ascii.eqb _ _); [done|]. intros [= <- <-]. simpl. lia.
Qed.

Definition inspect {A : Type} (x : A) : { y : A | x = y } := exist _ x eq_refl.

(** [re.finditer(regex, expression)]: the successive non-overlapping
    matches, scanning from the left; a position where nothing matches is
    skipped. *)
Equations? finditer (s : string) : list (kind * string) by wf (String.length s) lt :=
  finditer EmptyString := [];
  finditer (String c r) with inspect (match_at (String c r)) := {
    | exist _ (Some (k, value, rest)) E => (k, value) :: finditer rest;
    | exist _ None E => finditer r }.
Proof. by apply match_at_length in E. Defined.

(** The loop over the matches: each match appends its token, whitespace is
    skipped, an UNKNOWN match raises. *)
Fixpoint collect_tokens (matches : list (kind * string)) (tokens : list string)
  : result (list string) :=
  match matches with
  | [] => Ok tokens
  | (k, value) :: more =>
      match k with
      | OPERATOR =>
          collect_tokens more
            (tokens ++ [default (upper value) (symbol_map !! upper value)])
      | VARIABLE => collect_tokens more (tokens ++ [upper value])
      | CONSTANT | LPAREN | RPAREN => collect_tokens more (tokens ++ [upper value])
      | WHITESPACE => collect_tokens more tokens
      | UNKNOWN => Raise (ValueError ("Unexpected character: " +:+ value))
      end
  end.

Definition tokenize_expression (expression : string) : result (list string) :=
  collect_tokens (finditer expression) [].

(** ** convert_to_postfix *)

(** [key in d] for a dictionary [d]. *)
Definition in_dict {V : Type} (d : gmap string V) (key : string) : bool :=
  bool_decide (is_Some (d !! key)).

(** [d[key]]. *)
Definition getitem {V : Type} (d : gmap string V) (key : string) : result V :=
  match d !! key with
  | Some v => Ok v
  | None => Raise (KeyError key)
  end.

(** [l.pop()]: the top of the stack and the stack below it. *)
Definition pop {A : Type} (l : list A) : result (A * list A) :=
  match l with
  | top :: below => Ok (top, below)
  | [] => Raise (IndexError "pop from empty list")
  end.

Definition constants : gset string := {[ "TRUE"; "FALSE" ]}.

Global Instance assoc_inhabited : Inhabited assoc := populate LEFT.

(** The condition of the [while] loop run on an operator [token], with
    [top = operators[-1]].  The two tables are read only for keys of
    [self.operators], which are also their keys. *)
Definition must_pop (token top : string) : bool :=
  in_dict operators top &&
  ((bool_decide (associativity_map !!! token = LEFT)
      && (precedence_levels !!! token <=? precedence_levels !!! top)%nat)
   || (bool_decide (associativity_map !!! token = RIGHT)
      && (precedence_levels !!! token <? precedence_levels !!! top)%nat)).

(** [while operators and cond(operators[-1]): output.append(operators.pop())] *)
Fixpoint pop_while (cond : string → bool) (opstack output : list string)
  : list string * list string :=
  match opstack with
  | top :: below =>
      if cond top then pop_while cond below (output ++ [top]) else (opstack, output)
  | [] => ([], output)
  end.

(** The body of the [for token in tokens] loop; the state is
    [(output, operators)]. *)
Definition convert_step (token : string) (output opstack : list string)
  : result (list string * list string) :=
  if bool_decide (token ∈ variables_set) || bool_decide (token ∈ constants) then
    Ok (output ++ [token], opstack)
  else if in_dict operators token then
    let '(opstack', output') := pop_while (must_pop token) opstack output in
    Ok (output', token :: opstack')
  else if String.eqb token "(" then
    Ok (output, token :: opstack)
  else if String.eqb token ")" then
    let '(opstack', output') :=
      pop_while (λ top, negb (String.eqb top "(")) opstack output in
    popped <-! pop opstack';
    Ok (output', popped.2)
  else Raise (ValueError ("Unknown token: " +:+ token)).

Fixpoint convert_loop (tokens output opstack : list string)
  : result (list string * list string) :=
  match tokens with
  | [] => Ok (output, opstack)
  | token :: more =>
      state <-! convert_step token output opstack;
      convert_loop more state.1 state.2
  end.

(** The final [while operators] loop. *)
Fixpoint drain (opstack output : list string) : result (list string) :=
  match opstack with
  | [] => Ok output
  | top :: below =>
      if String.eqb top "(" || String.eqb top ")" then
        Raise (ValueError "Mismatched parentheses")
      else drain below (output ++ [top])
  end.

Definition convert_to_postfix (tokens : list string) : result (list string) :=
  state <-! convert_loop tokens [] [];
  drain state.2 state.1.

(** ** evaluate_postfix_expression *)

Definition call1 (f : func) (a : bool) : result bool :=
  match f with
  | Fun1 g => Ok (g a)
  | Fun2 _ => Raise (TypeError "missing 1 required positional argument")
  end.

Definition call2 (f : func) (a b : bool) : result bool :=
  match f with
  | Fun2 g => Ok (g a b)
  | Fun1 _ => Raise (TypeError "takes 1 positional argument but 2 were given")
  end.

Definition operator_symbols : gmap string string :=
  list_to_map [ ("AND", "^"); ("OR", "v"); ("IMPLIES", "->"); ("IFF", "<->") ].

Definition operator_symbol (token : string) : string :=
  default token (operator_symbols !! token).

(** The body of the [for token in postfix_tokens] loop; the state is
    [(stack, results)]. *)
Definition eval_step (values : gmap string bool) (token : string)
    (stack results : list (string * bool))
  : result (list (string * bool) * list (string * bool)) :=
  if bool_decide (token ∈ variables_set) then
    v <-! getitem values token;
    Ok ((token, v) :: stack, results)
  else if bool_decide (token ∈ constants) then
    Ok ((token, String.eqb token "TRUE") :: stack, results)
  else
    match operators !! token with
    | Some op =>
        if String.eqb token "NOT" then
          a <-! pop stack;
          res <-! call1 (op_func op) a.1.2;
          let label := "~" +:+ a.1.1 in
          Ok ((label, res) :: a.2, results ++ [(label, res)])
        else
          b <-! pop stack;
          a <-! pop b.2;
          res <-! call2 (op_func op) a.1.2 b.1.2;
          let label := a.1.1 +:+ " " +:+ operator_symbol token +:+ " " +:+ b.1.1 in
          Ok ((label, res) :: a.2, results ++ [(label, res)])
    | None => Raise (ValueError ("Unknown token: " +:+ token))
    end.

Fixpoint eval_loop (postfix_tokens : list string) (values : gmap string bool)
    (stack results : list (string * bool))
  : result (list (string * bool) * list (string * bool)) :=
  match postfix_tokens with
  | [] => Ok (stack, results)
  | token :: more =>
      state <-! eval_step values token stack results;
      eval_loop more values state.1 state.2
  end.

(** [stack[0]] is the bottom of the stack, the last element of the list. *)
Definition evaluate_postfix_expression (postfix_tokens : list string)
    (values : gmap string bool) : result (bool * list (string * bool)) :=
  state <-! eval_loop postfix_tokens values [] [];
  if bool_decide (length state.1 ≠ 1%nat) then
    Raise (ValueError "Invalid postfix expression")
  else
    match last state.1 with
    | Some bottom => Ok (bottom.2, state.2)
    | None => Raise (IndexError "list index out of range")
    end.

(** ** create_truth_table *)

(** [sorted] on strings: ascending in the lexicographic order of the
    characters. *)
Definition sorted (l : list string) : list string := merge_sort String.le l.

(** [itertools.product(pool, repeat=n)], as the library documents it:
    [result = [[]]], then once per position
    [result = [x + [y] for x in result for y in pool]]. *)
Definition product {A : Type} (pool : list A) (repeat : nat) : list (list A) :=
  Nat.iter repeat (λ res, x ← res; y ← pool; [x ++ [y]]) [[]].

(** [dict(pairs)] and [{k: v for k, v in pairs}]: a later pair overwrites an
    earlier one with the same key. *)
Definition dict {V : Type} (pairs : list (string * V)) : gmap string V :=
  foldl (λ d kv, <[kv.1 := kv.2]> d) ∅ pairs.

(** [list(dict.fromkeys(keys))]: the distinct keys, in the order of their
    first occurrence. *)
Fixpoint fromkeys_from (seen keys : list string) : list string :=
  match keys with
  | [] => []
  | key :: more =>
      if bool_decide (key ∈ seen) then fromkeys_from seen more
      else key :: fromkeys_from (key :: seen) more
  end.

Definition fromkeys (keys : list string) : list string := fromkeys_from [] keys.

(** [max(len(header) for header in headers)]. *)
Definition max_length (headers : list string) : result nat :=
  match headers with
  | [] => Raise (ValueError "max() arg is an empty sequence")
  | _ => Ok (foldr Nat.max 0%nat (String.length <$> headers))
  end.

Definition vars_in_expr (tokens : list string) : list string :=
  sorted (elements (variables_set ∩ list_to_set (filter (.∈ variables_set) tokens))).

(** What a call of [create_truth_table] does, with the printed text reduced
    to its content: the message of an error, or the headers and the cells
    of the rows (the variable columns, then the sub-expression columns).
    [Uncaught e] is an exception that leaves the function. *)
Inductive outcome : Type :=
| NoVariables
| ErrorDuringEvaluation (e : exn)
| ErrorEvaluatingExpression (printed_rows : list (list bool)) (msg : string)
| Uncaught (e : exn)
| Table (headers : list string) (rows : list (list bool)) (tautology : bool).

(** The value returned by the call, when it returns. *)
Definition returned (o : outcome) : option bool :=
  match o with
  | NoVariables | ErrorDuringEvaluation _ | ErrorEvaluatingExpression _ _ => Some false
  | Uncaught _ => None
  | Table _ _ tautology => Some tautology
  end.

Fixpoint mapM {A B : Type} (f : A → result B) (l : list A) : result (list B) :=
  match l with
  | [] => Ok []
  | x :: r => y <-! f x; ys <-! mapM f r; Ok (y :: ys)
  end.

(** The cells of one printed row. *)
Definition row_cells (vars headers : list string) (values : gmap string bool)
    (intermediate : list (string * bool)) : result (list bool) :=
  let sub_results := dict intermediate in
  var_cells <-! mapM (getitem values) vars;
  Ok (var_cells
        ++ ((λ sub, default false (sub_results !! sub)) <$> drop (length vars) headers)).

(** The [for combo in combinations] loop; the state is the rows printed so
    far and the [tautology] flag. *)
Fixpoint rows_loop (tokens vars headers : list string) (combinations : list (list bool))
    (rows : list (list bool)) (tautology : bool) : outcome :=
  match combinations with
  | [] => Table headers rows tautology
  | combo :: more =>
      let values := dict (zip vars combo) in
      match (postfix <-! convert_to_postfix tokens;
             evaluate_postfix_expression postfix values) with
      | Raise (ValueError msg) => ErrorEvaluatingExpression rows msg
      | Raise e => Uncaught e
      | Ok (final_result, intermediate) =>
          match row_cells vars headers values intermediate with
          | Raise e => Uncaught e
          | Ok row =>
              rows_loop tokens vars headers more (rows ++ [row])
                (if negb final_result then false else tautology)
          end
      end
  end.

Definition create_truth_table (expression : string) : outcome :=
  match tokenize_expression expression with
  | Raise e => Uncaught e
  | Ok tokens =>
      let vars := vars_in_expr tokens in
      let combinations := product [false; true] (length vars) in
      match combinations with
      | [] => NoVariables
      | first :: _ =>
          let initial_values := dict (zip vars first) in
          match (postfix <-! convert_to_postfix tokens;
                 evaluate_postfix_expression postfix initial_values) with
          | Raise e => ErrorDuringEvaluation e
          | Ok (_, sub_expressions) =>
              let headers := vars ++ fromkeys (sub_expressions.*1) in
              match max_length headers with
              | Raise e => Uncaught e
              | Ok _ => rows_loop tokens vars headers combinations [] true
              end
          end
      end
  end.

(** ** The printed lines of the table *)

Definition spaces (n : nat) : string := string_of_list_ascii (replicate n " "%char).

(** [s.center(width)] with the default fill character: CPython pads with
    [marg = width - len(s)] spaces, [marg // 2 + (marg & width & 1)] of
    them on the left. *)
Definition center (s : string) (width : nat) : string :=
  let len := String.length s in
  if (width <=? len)%nat then s
  else
    let marg := (width - len)%nat in
    let left := (marg / 2 + (if Nat.odd marg && Nat.odd width then 1 else 0))%nat in
    spaces left +:+ s +:+ spaces (marg - left).

(** [sep.join(parts)]. *)
Fixpoint join (sep : string) (parts : list string) : string :=
  match parts with
  | [] => EmptyString
  | part :: more =>
      match more with
      | [] => part
      | _ => part +:+ sep +:+ join sep more
      end
  end.

(** The number of box characters of the rules printed above and below
    the headers, [max_length * len(headers) + 3 * (len(headers) - 1)]. *)
Definition rule_width (max_length : nat) (headers : list string) : nat :=
  max_length * length headers + 3 * (length headers - 1).

Definition header_line (max_length : nat) (headers : list string) : string :=
  join " | " ((λ header, center header max_length) <$> headers).

Definition cell_text (res : bool) : string := if res then "TRUE" else "FALSE".

(** The line printed for a row: the cells of the variables are joined,
    then the cell of each sub-expression is appended with its separator. *)
Definition row_line (max_length : nat) (var_cells sub_cells : list bool) : string :=
  foldl (λ row res, row +:+ " | " +:+ center (cell_text res) max_length)
    (join " | " ((λ value, center (cell_text value) max_length) <$> var_cells))
    sub_cells.

(** The line of a row of the table, whose first [k] cells are those of
    the variables. *)
Definition table_row_line (max_length k : nat) (row : list bool) : string :=
  row_line max_length (take k row) (drop k row).

(** ** read_statements_from_file and main_program *)

(** [str.rstrip()] and [str.strip()] without argument: the whitespace of
    [str.isspace], which is the class [is_space] on code points below
    256. *)
Fixpoint rstrip (s : string) : string :=
  match s with
  | EmptyString => EmptyString
  | String c r =>
      match rstrip r with
      | EmptyString => if is_space c then EmptyString else String c EmptyString
      | kept => String c kept
      end
  end.

Definition strip (s : string) : string := rstrip (span is_space s).2.

(** [read_statements_from_file]: [file] is the list of the lines that the
    iteration over the open file yields, or [None] when opening or reading
    raises (both handlers return the empty list).  [str_upper] stands for
    [str.upper()], which on characters outside ASCII can leave the code
    points below 256; the properties below state what they need of it. *)
Definition read_statements_from_file (str_upper : string → string)
    (file : option (list string)) : list string :=
  match file with
  | None => []
  | Some lines =>
      (λ line, str_upper (strip line)) <$> filter (λ line, strip line ≠ EmptyString) lines
  end.

(** What [main_program] does with one statement (the body of the loop of
    choice 1, and choice 2 after the statement is read): the message
    printed before [continue], or the call of [create_truth_table].
    [Escaped e] is an exception that the [except ValueError] does not
    catch. *)
Inductive report : Type :=
| NoValidVariables
| ErrorInTokenizing (msg : string)
| Escaped (e : exn)
| TruthTable (o : outcome).

Definition evaluate_statement (expression : string) : report :=
  match tokenize_expression expression with
  | Raise (ValueError msg) => ErrorInTokenizing msg
  | Raise e => Escaped e
  | Ok tokens =>
      let vars : gset string := list_to_set (filter (.∈ variables_set) tokens) in
      if decide (vars = ∅) then NoValidVariables
      else TruthTable (create_truth_table expression)
  end.

(** An exception that leaves the handling of a statement, and with it
    [main_program]. *)
Definition escapes (r : report) : bool :=
  match r with
  | Escaped _ | TruthTable (Uncaught _) => true
  | _ => false
  end.

(** Choice 1: the statements of the file, in order, up to the first one
    whose handling lets an exception escape. *)
Fixpoint evaluate_statements (statements : list string) : list report :=
  match statements with
  | [] => []
  | expression :: more =>
      let r := evaluate_statement expression in
      if escapes r then [r] else r :: evaluate_statements more
  end.

Definition evaluate_file (str_upper : string → string) (file : option (list string))
    : list report :=
  evaluate_statements (read_statements_from_file str_upper file).

(** Choice 2: the statement typed by the user. *)
Inductive entry : Type :=
| NoStatementProvided
| Evaluated (r : report).

Definition evaluate_input (str_upper : string → string) (text : string) : entry :=
  let expression := str_upper (strip text) in
  if decide (expression = EmptyString) then NoStatementProvided
  else Evaluated (evaluate_statement expression).

(** An ASCII or whitespace character: on strings of such characters
    [str.upper()] is [upper]. *)
Definition plain (c : ascii) : bool := (nat_of_ascii c <? 128)%nat || is_space c.

(** ** Notions used to state the properties *)

(** The tokens the converter has a branch for: the tests of
    [convert_step], in its order. *)
Definition recognized (token : string) : bool :=
  bool_decide (token ∈ variables_set) || bool_decide (token ∈ constants)
  || in_dict operators token || String.eqb token "(" || String.eqb token ")".

(** The tokens the evaluator has a branch for. *)
Definition evaluable (token : string) : bool :=
  bool_decide (token ∈ variables_set) || bool_decide (token ∈ constants)
  || in_dict operators token.

(** The tokens appended by one match of kind [k] and text [value]. *)
Definition emit (k : kind) (value : string) : list string :=
  match k with
  | OPERATOR => [default (upper value) (symbol_map !! upper value)]
  | VARIABLE | CONSTANT | LPAREN | RPAREN => [upper value]
  | WHITESPACE | UNKNOWN => []
  end.

(** Nesting depth of the parentheses after [tokens], starting at [depth];
    [None] when a [")"] closes nothing. *)
Definition paren_step (token : string) (depth : nat) : option nat :=
  if String.eqb token "(" then Some (S depth)
  else if String.eqb token ")" then
    match depth with
    | O => None
    | S d => Some d
    end
  else Some depth.

Fixpoint paren_depth (tokens : list string) (depth : nat) : option nat :=
  match tokens with
  | [] => Some depth
  | token :: more =>
      match paren_step token depth with
      | Some d => paren_depth more d
      | None => None
      end
  end.

(** The depth of the evaluation stack after the postfix [tokens], starting
    at [depth]: an operand adds an entry, NOT needs one entry and replaces
    it, a binary operator needs two entries and replaces them by one.
    [None] when an operator lacks an operand or a token is unknown. *)
Definition depth_step (token : string) (depth : nat) : option nat :=
  if bool_decide (token ∈ variables_set) || bool_decide (token ∈ constants) then
    Some (S depth)
  else if String.eqb token "NOT" then
    match depth with
    | S _ => Some depth
    | O => None
    end
  else if in_dict operators token then
    match depth with
    | S (S d) => Some (S d)
    | _ => None
    end
  else None.

Fixpoint stack_depth (tokens : list string) (depth : nat) : option nat :=
  match tokens with
  | [] => Some depth
  | token :: more =>
      match depth_step token depth with
      | Some d => stack_depth more d
      | None => None
      end
  end.

(** The tokens kept on the operator stack: operators and ["("]. *)
Definition stackable (token : string) : bool :=
  in_dict operators token || String.eqb token "(".

(** The number of ["("] on the operator stack. *)
Definition open_parens (opstack : list string) : nat :=
  length (filter (λ t, t = "(") opstack).

(** The [n]-th row of a table counting upwards in binary over [k]
    columns: column [j] holds bit [k - 1 - j] of [n], so the last column
    is the lowest bit. *)
Definition bits (k n : nat) : list bool :=
  (λ j, Nat.testbit n (k - 1 - j)) <$> seq 0 k.

(** The final value of the expression in the row of [combo]. *)
Definition final_value (tokens vars : list string) (combo : list bool) : option bool :=
  match (postfix <-! convert_to_postfix tokens;
         evaluate_postfix_expression postfix (dict (zip vars combo))) with
  | Ok (final_result, _) => Some final_result
  | Raise _ => None
  end.

(** What a match of each kind looks like. *)
Definition match_shape (k : kind) (value rest s : string) : Prop :=
  match k with
  | LPAREN => value = "("
  | RPAREN => value = ")"
  | OPERATOR =>
      value ∈ ["<->"; "->"; "~"; "^"; "or"; "AND"; "OR"; "NOT"; "IMPLIES"; "IFF"]
  | VARIABLE => value ∈ ["P"; "Q"; "R"; "p"; "q"; "r"]
  | CONSTANT => value ∈ ["TRUE"; "FALSE"]
  | WHITESPACE =>
      ∃ c run, value = String c run ∧ is_space c = true ∧ span is_space s = (value, rest)
  | UNKNOWN => ∃ c, value = String c EmptyString
  end.

(** The first evaluation of [create_truth_table]: under the all-false
    assignment of the variables of the expression. *)
Definition first_run (tokens : list string) : result (bool * list (string * bool)) :=
  let vars := vars_in_expr tokens in
  postfix <-! convert_to_postfix tokens;
  evaluate_postfix_expression postfix (dict (zip vars (replicate (length vars) false))).

(** The operands of the converter: the test of its first branch. *)
Definition operand (token : string) : Prop :=
  token ∈ variables_set ∨ token ∈ constants.

Global Instance operand_dec token : Decision (operand token).
Proof. unfold operand. apply _. Defined.

(** The tokens other than the two parentheses. *)
Definition not_paren (token : string) : Prop := token ≠ "(" ∧ token ≠ ")".

Global Instance not_paren_dec token : Decision (not_paren token).
Proof. unfold not_paren. apply _. Defined.

(** The canonical tokens written one after the other, each followed by a
    space. *)
Fixpoint render_tokens (tokens : list string) : string :=
  match tokens with
  | [] => EmptyString
  | token :: more => token +:+ " " +:+ render_tokens more
  end.

(** Every character of [s] satisfies [f]. *)
Fixpoint string_forall (f : ascii → bool) (s : string) : bool :=
  match s with
  | EmptyString => true
  | String c r => f c && string_forall f r
  end.

(** A string of whitespace only, and a string without whitespace. *)
Definition all_space (s : string) : bool := string_forall is_space s.
Definition no_space (s : string) : bool := string_forall (λ c, negb (is_space c)) s.

(** The characters that occur in the tokens of the language. *)
Definition token_alphabet : string := "()<->~^orANDNOTIMPLIESIFFPQRpqrTRUEFALSE".

(** The characters that begin a token on their own. *)
Definition single_char_tokens : string := "()~^PQRpqr".

(** The groups before WHITESPACE in [token_spec]. *)
Definition word_spec : list (kind * pattern) := take 5 token_spec.

(** A string that is empty or starts with whitespace. *)
Definition starts_blank (s : string) : bool :=
  match s with
  | EmptyString => true
  | String c _ => is_space c
  end.

(** The spellings that the tokenizer matches, each with the token it
    gives: the alternatives of the groups LPAREN, RPAREN, OPERATOR,
    VARIABLE and CONSTANT. *)
Definition spellings : list (string * string) :=
  [("(", "("); (")", ")");
   ("<->", "IFF"); ("->", "IMPLIES"); ("~", "NOT"); ("^", "AND"); ("or", "OR");
   ("AND", "AND"); ("OR", "OR"); ("NOT", "NOT"); ("IMPLIES", "IMPLIES"); ("IFF", "IFF");
   ("P", "P"); ("Q", "Q"); ("R", "R"); ("p", "P"); ("q", "Q"); ("r", "R");
   ("TRUE", "TRUE"); ("FALSE", "FALSE")].

(** A text made of whitespace and of spellings, with the tokens of its
    spellings in their order. *)
Inductive spelled : string → list string → Prop :=
| spelled_end : spelled EmptyString []
| spelled_space ws s tokens :
    all_space ws = true → spelled s tokens → spelled (ws +:+ s) tokens
| spelled_token v t s tokens :
    (v, t) ∈ spellings → spelled s tokens → spelled (v +:+ s) (t :: tokens).

(** The top of the stack and the end of the trace: once the scan has
    applied an operator and holds a single entry, that entry is the last
    one recorded. *)
Definition top_is_recorded (stack results : list (string * bool)) : Prop :=
  (2 ≤ length stack)%nat ∨
  (∃ entry, stack = [entry] ∧ (last results = Some entry ∨ results = [])) ∨
  (stack = [] ∧ results = []).

(** ** Expressions as trees

    The formulas the program is written for, as trees, with their usual
    truth-functional meaning; they serve to state what the converter and
    the evaluator compute. *)

Inductive variable : Type := VarP | VarQ | VarR.

Definition variable_name (v : variable) : string :=
  match v with
  | VarP => "P"
  | VarQ => "Q"
  | VarR => "R"
  end.

Inductive connective : Type := And | Or | Implies | Iff.

Definition connective_name (c : connective) : string :=
  match c with
  | And => "AND"
  | Or => "OR"
  | Implies => "IMPLIES"
  | Iff => "IFF"
  end.

Definition connective_glyph (c : connective) : string :=
  match c with
  | And => "^"
  | Or => "v"
  | Implies => "->"
  | Iff => "<->"
  end.

(** The truth table of a connective. *)
Definition connective_value (c : connective) (a b : bool) : bool :=
  match c with
  | And => a && b
  | Or => a || b
  | Implies => implb a b
  | Iff => Bool.eqb a b
  end.

Inductive formula : Type :=
| Atom (v : variable)
| Lit (b : bool)
| Neg (f : formula)
| Conn (c : connective) (f g : formula).

(** The truth value of a formula under an assignment of the variables. *)
Fixpoint truth (rho : string → bool) (f : formula) : bool :=
  match f with
  | Atom v => rho (variable_name v)
  | Lit b => b
  | Neg f => negb (truth rho f)
  | Conn c f g => connective_value c (truth rho f) (truth rho g)
  end.

(** The variables that occur in a formula. *)
Fixpoint formula_vars (f : formula) : list string :=
  match f with
  | Atom v => [variable_name v]
  | Lit _ => []
  | Neg f => formula_vars f
  | Conn _ f g => formula_vars f ++ formula_vars g
  end.

(** Reverse Polish notation: the operands, then the operator. *)
Fixpoint rpn (f : formula) : list string :=
  match f with
  | Atom v => [variable_name v]
  | Lit b => [if b then "TRUE" else "FALSE"]
  | Neg f => rpn f ++ ["NOT"]
  | Conn c f g => rpn f ++ rpn g ++ [connective_name c]
  end.

(** Infix notation with every negation and every connective in its own pair
    of parentheses. *)
Fixpoint parenthesized (f : formula) : list string :=
  match f with
  | Atom v => [variable_name v]
  | Lit b => [if b then "TRUE" else "FALSE"]
  | Neg f => ["("; "NOT"] ++ parenthesized f ++ [")"]
  | Conn c f g => ["("] ++ parenthesized f ++ [connective_name c] ++ parenthesized g ++ [")"]
  end.

(** The label the evaluator builds for a formula, and the entries its
    sub-formulas leave in the trace: the negations and connectives, each
    after its operands. *)
Fixpoint formula_label (f : formula) : string :=
  match f with
  | Atom v => variable_name v
  | Lit b => if b then "TRUE" else "FALSE"
  | Neg f => "~" +:+ formula_label f
  | Conn c f g => formula_label f +:+ " " +:+ connective_glyph c +:+ " " +:+ formula_label g
  end.

Fixpoint formula_trace (rho : string → bool) (f : formula) : list (string * bool) :=
  match f with
  | Atom _ | Lit _ => []
  | Neg g => formula_trace rho g ++ [(formula_label f, truth rho f)]
  | Conn _ g h =>
      formula_trace rho g ++ formula_trace rho h ++ [(formula_label f, truth rho f)]
  end.


(** The level of a connective in the precedence table of the parser. *)
Definition connective_level (c : connective) : nat :=
  precedence_levels !!! connective_name c.

(** ** The constant tables *)

Lemma operators_lookup token :
  operators !! token =
    if decide (token = "NOT") then Some {| name := "NOT"; op_func := Fun1 (λ a, negb a) |}
    else if decide (token = "AND") then Some {| name := "AND"; op_func := Fun2 (λ a b, a && b) |}
    else if decide (token = "OR") then Some {| name := "OR"; op_func := Fun2 (λ a b, a || b) |}
    else if decide (token = "IMPLIES")
      then Some {| name := "IMPLIES"; op_func := Fun2 (λ a b, negb a || b) |}
    else if decide (token = "IFF")
      then Some {| name := "IFF"; op_func := Fun2 (λ a b, Bool.eqb a b) |}
    else None.
Proof.
  unfold operators. cbn [list_to_map foldr fst snd uncurry].
  rewrite !lookup_insert, lookup_empty.
  repeat case_decide; congruence.
Qed.

Lemma in_operators token :
  in_dict operators token = true ↔ token ∈ ["NOT"; "AND"; "OR"; "IMPLIES"; "IFF"].
Proof.
  unfold in_dict. rewrite bool_decide_eq_true, operators_lookup.
  repeat case_decide; subst; split; intros Hin;
    try (by eexists); try set_solver; try by destruct Hin.
Qed.

Lemma in_variables token : token ∈ variables_set ↔ token ∈ ["P"; "Q"; "R"].
Proof. unfold variables_set. set_solver. Qed.

Lemma in_constants token : token ∈ constants ↔ token ∈ ["TRUE"; "FALSE"].
Proof. unfold constants. set_solver. Qed.

Lemma recognized_cases token :
  recognized token = true ↔
  token ∈ ["P"; "Q"; "R"; "TRUE"; "FALSE"; "NOT"; "AND"; "OR"; "IMPLIES"; "IFF"; "("; ")"].
Proof.
  unfold recognized. rewrite !orb_true_iff, !bool_decide_eq_true, in_variables,
    in_constants, in_operators, !String.eqb_eq, !elem_of_cons, !elem_of_nil.
  tauto.
Qed.

(** ** The tokenizer *)

Lemma finditer_cons c r :
  finditer (String c r) =
    match match_at (String c r) with
    | Some (k, value, rest) => (k, value) :: finditer rest
    | None => finditer r
    end.
Proof.
  rewrite finditer_equation_2. unfold inspect.
  assert (H : ∀ o (E : match_at (String c r) = o),
    finditer_unfold_clause_2 c r (o ↾ E) =
      match o with
      | Some (k, value, rest) => (k, value) :: finditer rest
      | None => finditer r
      end).
  { by intros [[[k v] rest]|] E. }
  apply H.
Qed.

Lemma strip_prefix_app p s rest : strip_prefix p s = Some rest → s = p +:+ rest.
Proof.
  revert s; induction p as [|a p IH]; intros s; simpl.
  - by intros [= ->].
  - destruct s as [|b s]; [done|].
    destruct (Ascii.eqb_spec a b) as [->|]; [|done].
    by intros ->%IH.
Qed.

Lemma append_cons c r s : String c r +:+ s = String c (r +:+ s).
Proof. reflexivity. Qed.

Lemma span_app f s run rest : span f s = (run, rest) → s = run +:+ rest.
Proof.
  revert run rest; induction s as [|c s IH]; intros run rest; simpl.
  - by intros [= <- <-].
  - destruct (f c); [|by intros [= <- <-]].
    destruct (span f s) as [run' rest'] eqn:E. intros [= <- <-].
    rewrite append_cons. f_equal. by apply IH.
Qed.

Lemma match_alt_inv literals s value rest :
  match_alt literals s = Some (value, rest) → value ∈ literals ∧ s = value +:+ rest.
Proof.
  induction literals as [|lit more IH]; simpl; [done|].
  destruct (strip_prefix lit s) as [r|] eqn:E.
  - intros [= <- <-]. split; [by left|by apply strip_prefix_app].
  - intros [Hin ->]%IH. split; [by right|done].
Qed.

Lemma mem_char_inv c chars :
  mem_char c chars = true →
  String c EmptyString ∈ (λ d, String d EmptyString) <$> list_ascii_of_string chars.
Proof.
  induction chars as [|d chars IH]; simpl; [done|].
  destruct (Ascii.eqb_spec c d) as [->|]; simpl.
  - intros _. by left.
  - intros H. right. by apply IH.
Qed.

Lemma match_at_inv s k value rest :
  match_at s = Some (k, value, rest) →
  match_shape k value rest s ∧ s = value +:+ rest.
Proof.
  unfold match_at, token_spec, match_spec.
  repeat match goal with
  | |- context [match_pattern (Alt ?l) s] =>
      let E := fresh "E" in
      destruct (match_pattern (Alt l) s) as [[v r]|] eqn:E;
      [ intros [= <- <- <-]; apply match_alt_inv in E as [Hin ?];
        split; [first [exact Hin | set_solver] | done]
      | clear E ]
  | |- context [match_pattern ?p s] =>
      let E := fresh "E" in
      destruct (match_pattern p s) as [[v r]|] eqn:E;
      [ intros [= <- <- <-]; revert E | clear E ]
  end; try done; cbn [match_pattern match_shape].
  - destruct s as [|c s]; [done|].
    destruct (mem_char _ _) eqn:E; [|done]. intros [= <- <-].
    split; [|done]. by apply mem_char_inv in E.
  - destruct (span is_space s) as [run rest'] eqn:E.
    destruct run as [|c run]; [done|]. intros [= <- <-].
    split; [|by apply span_app in E].
    exists c, run. split; [done|]. split; [|done].
    destruct s as [|c' s]; [done|]. simpl in E.
    destruct (is_space c') eqn:Ec; [|done].
    destruct (span is_space s). by injection E as -> _ _.
  - destruct s as [|c s]; [done|].
    destruct (Ascii.eqb _ _); [done|]. intros [= <- <-]. split; [by exists c|done].
Qed.

(** Every position of the input is matched by some group. *)
Lemma match_at_total c r : is_Some (match_at (String c r)).
Proof.
  unfold match_at, token_spec, match_spec.
  repeat match goal with
  | |- context [match_pattern ?p ?s] =>
      let E := fresh "E" in
      destruct (match_pattern p s) as [[v r']|] eqn:E; [by eexists|]
  end.
  exfalso. cbn [match_pattern] in *.
  destruct (Ascii.eqb_spec c "010"%char) as [->|]; [|done].
  simpl in E4. by destruct (span is_space r).
Qed.

Lemma collect_tokens_acc matches tokens :
  collect_tokens matches tokens =
    (more <-! collect_tokens matches []; Ok (tokens ++ more)).
Proof.
  revert tokens. induction matches as [|[k value] matches IH]; intros tokens; simpl.
  - by rewrite app_nil_r.
  - destruct k; try done; try apply IH;
      rewrite (IH (tokens ++ _)), (IH [_]);
      (destruct (collect_tokens matches []); simpl; [by rewrite <- app_assoc | done]).
Qed.

Lemma collect_tokens_cons k value matches :
  collect_tokens ((k, value) :: matches) [] =
    match k with
    | UNKNOWN => Raise (ValueError ("Unexpected character: " +:+ value))
    | _ => more <-! collect_tokens matches []; Ok (emit k value ++ more)
    end.
Proof.
  destruct k; simpl; try done; try rewrite (collect_tokens_acc _ [_]);
    by destruct (collect_tokens matches []).
Qed.

(** One unfolding of the tokenizer at a non-empty input. *)
Lemma tokenize_expression_cons c r :
  ∃ k value rest,
    match_at (String c r) = Some (k, value, rest) ∧
    (String.length rest < String.length (String c r))%nat ∧
    tokenize_expression (String c r) =
      match k with
      | UNKNOWN => Raise (ValueError ("Unexpected character: " +:+ value))
      | _ => more <-! tokenize_expression rest; Ok (emit k value ++ more)
      end.
Proof.
  destruct (match_at_total c r) as [[[k value] rest] E].
  exists k, value, rest. split; [done|]. split; [by apply match_at_length in E|].
  unfold tokenize_expression. by rewrite finditer_cons, E, collect_tokens_cons.
Qed.

Ltac split_elem_of H :=
  repeat (apply elem_of_cons in H as [->|H]); try (by apply elem_of_nil in H).

Lemma emit_recognized s k value rest :
  match_at s = Some (k, value, rest) →
  Forall (λ t, recognized t = true) (emit k value).
Proof.
  intros [Hshape _]%match_at_inv.
  destruct k; cbn [match_shape] in Hshape; try (by constructor);
    try (subst value; by repeat constructor);
    split_elem_of Hshape; by repeat constructor.
Qed.

Lemma upper_char_idemp c : upper_char (upper_char c) = upper_char c.
Proof. by destruct c as [[] [] [] [] [] [] [] []]. Qed.

Lemma upper_idemp s : upper (upper s) = upper s.
Proof. induction s as [|c s IH]; simpl; [done|]. by rewrite upper_char_idemp, IH. Qed.

Lemma upper_app s1 s2 : upper (s1 +:+ s2) = upper s1 +:+ upper s2.
Proof. induction s1 as [|c s1 IH]; [done|]. rewrite append_cons. simpl. by rewrite IH. Qed.

Lemma is_space_upper_char c : is_space (upper_char c) = is_space c.
Proof. by destruct c as [[] [] [] [] [] [] [] []]. Qed.

Lemma upper_char_space c : is_space c = true → upper_char c = c.
Proof. by destruct c as [[] [] [] [] [] [] [] []]. Qed.

Lemma span_upper s run rest :
  span is_space s = (run, rest) →
  span is_space (upper s) = (run, upper rest) ∧ upper run = run.
Proof.
  revert run rest. induction s as [|c s IH]; intros run rest; simpl.
  - by intros [= <- <-].
  - rewrite is_space_upper_char. destruct (is_space c) eqn:Ec.
    + destruct (span is_space s) as [run' rest'] eqn:E. intros [= <- <-].
      destruct (IH _ _ eq_refl) as [-> Hrun]. simpl.
      by rewrite Hrun, !upper_char_space.
    + by intros [= <- <-].
Qed.

(** A whitespace character starts a WHITESPACE match: no earlier group
    begins with one. *)
Lemma match_at_space c r run rest :
  is_space c = true →
  span is_space r = (run, rest) →
  match_at (String c r) = Some (WHITESPACE, String c run, rest).
Proof.
  intros Hc E. unfold match_at, token_spec.
  destruct c as [[] [] [] [] [] [] [] []]; try discriminate Hc;
    cbn -[span]; cbn [span]; rewrite Hc, E; reflexivity.
Qed.

(** A match other than UNKNOWN is found again, with the same kind and at
    the same place, once the input is put in upper case. *)
Lemma match_at_upper s k value rest :
  match_at s = Some (k, value, rest) →
  k ≠ UNKNOWN →
  match_at (upper s) = Some (k, upper value, upper rest).
Proof.
  intros Hm Hk. destruct (match_at_inv _ _ _ _ Hm) as [Hshape ->].
  rewrite upper_app.
  destruct k; cbn [match_shape] in Hshape; try done;
    try (subst value; reflexivity);
    try (split_elem_of Hshape; reflexivity).
  destruct Hshape as (c & run & -> & Hc & Hspan).
  rewrite append_cons in Hspan. simpl in Hspan. rewrite Hc in Hspan.
  destruct (span is_space (run +:+ rest)) as [run' rest'] eqn:E.
  injection Hspan as -> ->.
  apply span_upper in E as [E Hrun]. rewrite upper_app in E.
  simpl. rewrite append_cons, (upper_char_space c Hc), Hrun.
  apply match_at_space; [done|]. by rewrite <- Hrun at 1.
Qed.

Lemma tokenize_expression_upper s tokens :
  tokenize_expression s = Ok tokens → tokenize_expression (upper s) = Ok tokens.
Proof.
  remember (String.length s) as n eqn:Hn. revert s tokens Hn.
  induction n as [n IH] using lt_wf_ind. intros [|c r] tokens -> Hs; [done|].
  destruct (tokenize_expression_cons c r) as (k & value & rest & Hm & Hlen & Heq).
  rewrite Heq in Hs. clear Heq.
  destruct (tokenize_expression_cons (upper_char c) (upper r))
    as (k' & value' & rest' & Hm' & _ & Heq').
  change (String (upper_char c) (upper r)) with (upper (String c r)) in *.
  assert (k ≠ UNKNOWN) as Hk by (by intros ->).
  rewrite (match_at_upper _ _ _ _ Hm Hk) in Hm'. injection Hm' as <- <- <-.
  rewrite Heq'.
  assert (emit k (upper value) = emit k value) as ->
    by (destruct k; simpl; by rewrite ?upper_idemp).
  destruct (tokenize_expression rest) as [more|e] eqn:Hrest;
    [|by destruct k].
  rewrite (IH _ Hlen rest more eq_refl Hrest). by destruct k.
Qed.

Lemma tokenize_expression_recognized s tokens :
  tokenize_expression s = Ok tokens → Forall (λ t, recognized t = true) tokens.
Proof.
  remember (String.length s) as n eqn:Hn. revert s tokens Hn.
  induction n as [n IH] using lt_wf_ind. intros [|c r] tokens -> Hs.
  { injection Hs as <-. constructor. }
  destruct (tokenize_expression_cons c r) as (k & value & rest & Hm & Hlen & Heq).
  rewrite Heq in Hs. clear Heq.
  destruct (tokenize_expression rest) as [more|e] eqn:Hrest; [|by destruct k].
  assert (tokens = emit k value ++ more) as -> by (destruct k; by simplify_eq/=).
  apply Forall_app. split; [by eapply emit_recognized|by eapply IH].
Qed.

(** ** The converter *)

Lemma pop_while_spec cond opstack output opstack' output' :
  pop_while cond opstack output = (opstack', output') →
  ∃ popped,
    opstack = popped ++ opstack' ∧ output' = output ++ popped ∧
    Forall (λ t, cond t = true) popped ∧
    match opstack' with [] => True | top :: _ => cond top = false end.
Proof.
  revert output. induction opstack as [|top below IH]; intros output; simpl.
  - intros [= <- <-]. exists []. rewrite !app_nil_r. split_and!; try done; constructor.
  - destruct (cond top) eqn:Etop.
    + intros (popped & -> & -> & Hall & Hnext)%IH.
      exists (top :: popped). rewrite <- app_assoc. split_and!; try done.
      by constructor.
    + intros [= <- <-]. exists []. rewrite !app_nil_r. split_and!; try done; constructor.
Qed.

Lemma operand_cases token :
  bool_decide (token ∈ variables_set) || bool_decide (token ∈ constants) = true →
  token ∈ ["P"; "Q"; "R"; "TRUE"; "FALSE"].
Proof.
  intros [H|H]%orb_true_iff; apply bool_decide_eq_true in H.
  - apply in_variables in H. set_solver.
  - apply in_constants in H. set_solver.
Qed.

Lemma operand_not_paren token :
  bool_decide (token ∈ variables_set) || bool_decide (token ∈ constants) = true →
  (∀ d, paren_step token d = Some d) ∧ stackable token = false.
Proof. intros H%operand_cases. split_elem_of H; by vm_compute. Qed.

Lemma operator_not_paren token :
  in_dict operators token = true →
  (∀ d, paren_step token d = Some d) ∧ token ≠ "(" ∧ evaluable token = true.
Proof. intros H%in_operators. split_elem_of H; by vm_compute. Qed.

Lemma open_parens_cons token opstack :
  open_parens (token :: opstack) =
    if String.eqb token "(" then S (open_parens opstack) else open_parens opstack.
Proof.
  unfold open_parens. destruct (String.eqb_spec token "(").
  - by rewrite filter_cons_True.
  - by rewrite filter_cons_False.
Qed.

Lemma open_parens_popped popped opstack :
  Forall (λ t, t ≠ "(") popped → open_parens (popped ++ opstack) = open_parens opstack.
Proof.
  induction 1 as [|t popped Ht _ IH]; [done|].
  simpl. rewrite open_parens_cons. by destruct (String.eqb_spec t "(").
Qed.

Lemma open_parens_zero opstack : open_parens opstack = 0%nat → Forall (λ t, t ≠ "(") opstack.
Proof.
  induction opstack as [|t opstack IH]; [by constructor|].
  rewrite open_parens_cons. destruct (String.eqb_spec t "("); [done|].
  intros H. constructor; auto.
Qed.

(** One step of the converter follows the nesting depth: the parentheses
    left on the operator stack are the ones still open, and a step on a
    recognized token raises only for a [")"] that closes nothing. *)
Lemma convert_step_paren token output opstack :
  match convert_step token output opstack with
  | Ok state => paren_step token (open_parens opstack) = Some (open_parens state.2)
  | Raise e =>
      recognized token = true →
      e = IndexError "pop from empty list" ∧
      paren_step token (open_parens opstack) = None
  end.
Proof.
  unfold convert_step, recognized.
  destruct (bool_decide (token ∈ variables_set) || bool_decide (token ∈ constants))
    eqn:Hoperand; simpl.
  { apply operand_not_paren in Hoperand as [-> _]. done. }
  destruct (in_dict operators token) eqn:Hop; simpl.
  { destruct (pop_while _ _ _) as [opstack' output'] eqn:Hpop. simpl.
    apply pop_while_spec in Hpop as (popped & -> & -> & Hall & _).
    destruct (operator_not_paren _ Hop) as (-> & Hne & _).
    rewrite open_parens_cons, open_parens_popped.
    - by destruct (String.eqb_spec token "(").
    - eapply Forall_impl; [exact Hall|]. simpl. intros t Ht ->. by vm_compute in Ht. }
  unfold paren_step.
  destruct (String.eqb_spec token "(") as [->|Hl]; simpl.
  { by rewrite open_parens_cons. }
  destruct (String.eqb_spec token ")") as [->|Hr]; simpl; [|done].
  destruct (pop_while _ _ _) as [opstack' output'] eqn:Hpop.
  apply pop_while_spec in Hpop as (popped & -> & -> & Hall & Hnext).
  rewrite open_parens_popped.
  2:{ eapply Forall_impl; [exact Hall|]. simpl. intros t Ht ->. done. }
  destruct opstack' as [|top below]; simpl; [done|].
  apply negb_false_iff, String.eqb_eq in Hnext as ->.
  by rewrite open_parens_cons.
Qed.

Lemma convert_loop_paren tokens output opstack :
  match convert_loop tokens output opstack with
  | Ok state => paren_depth tokens (open_parens opstack) = Some (open_parens state.2)
  | Raise e =>
      Forall (λ t, recognized t = true) tokens →
      e = IndexError "pop from empty list" ∧
      paren_depth tokens (open_parens opstack) = None
  end.
Proof.
  revert output opstack. induction tokens as [|token more IH]; intros output opstack.
  { done. }
  simpl. pose proof (convert_step_paren token output opstack) as Hstep.
  destruct (convert_step token output opstack) as [[output' opstack']|e]; simpl in *.
  - rewrite Hstep. specialize (IH output' opstack').
    destruct (convert_loop more output' opstack'); [done|].
    intros Hall. apply IH. by inversion Hall.
  - intros Hall. inversion Hall as [|? ? Htoken _]; subst.
    by destruct (Hstep Htoken) as [-> ->].
Qed.

Lemma drain_open opstack output :
  open_parens opstack ≠ 0%nat →
  drain opstack output = Raise (ValueError "Mismatched parentheses").
Proof.
  revert output. induction opstack as [|top below IH]; intros output; [done|].
  rewrite open_parens_cons. simpl.
  destruct (String.eqb_spec top "("); [done|]. simpl.
  destruct (String.eqb top ")"); [done|]. apply IH.
Qed.

Lemma drain_spec opstack output :
  match drain opstack output with
  | Ok output' => output' = output ++ opstack ∧ open_parens opstack = 0%nat
  | Raise e => e = ValueError "Mismatched parentheses"
  end.
Proof.
  revert output. induction opstack as [|top below IH]; intros output; simpl.
  { by rewrite app_nil_r. }
  destruct (String.eqb_spec top "("); [done|]. simpl.
  destruct (String.eqb top ")"); [done|].
  specialize (IH (output ++ [top])). destruct (drain below _); [|done].
  rewrite open_parens_cons. destruct (String.eqb_spec top "("); [done|].
  by rewrite <- app_assoc in IH.
Qed.

(** The converter sends operands and operators to the output and keeps
    operators and ["("] on the stack. *)
Lemma convert_step_tokens token output opstack state :
  recognized token = true →
  Forall (λ t, evaluable t = true) output →
  Forall (λ t, stackable t = true) opstack →
  convert_step token output opstack = Ok state →
  Forall (λ t, evaluable t = true) state.1 ∧ Forall (λ t, stackable t = true) state.2.
Proof.
  intros Hrec Hout Hstack. unfold convert_step, recognized in *.
  destruct (bool_decide (token ∈ variables_set) || bool_decide (token ∈ constants))
    eqn:Hoperand; simpl in *.
  { intros [= <-]. simpl. split; [|done].
    apply Forall_app. split; [done|]. constructor; [|done].
    unfold evaluable. by rewrite Hoperand. }
  destruct (in_dict operators token) eqn:Hop; simpl in *.
  { destruct (pop_while _ _ _) as [opstack' output'] eqn:Hpop. intros [= <-]. simpl.
    apply pop_while_spec in Hpop as (popped & -> & -> & Hall & _).
    apply Forall_app in Hstack as [_ Hstack]. split.
    - apply Forall_app. split; [done|]. eapply Forall_impl; [exact Hall|].
      simpl. intros t [Ht _]%andb_true_iff. by apply operator_not_paren in Ht as (_ & _ & ?).
    - constructor; [|done]. unfold stackable. by rewrite Hop. }
  destruct (String.eqb_spec token "(") as [->|Hl]; simpl in *.
  { intros [= <-]. simpl. split; [done|]. by constructor. }
  destruct (String.eqb_spec token ")") as [->|Hr]; simpl in *; [|done].
  destruct (pop_while _ _ _) as [opstack' output'] eqn:Hpop.
  apply pop_while_spec in Hpop as (popped & -> & -> & Hall & Hnext).
  apply Forall_app in Hstack as [Hpopped Hstack].
  destruct opstack' as [|top below]; simpl; [done|]. intros [= <-]. simpl.
  split; [|by inversion Hstack].
  apply Forall_app. split; [done|].
  rewrite Forall_forall in Hall, Hpopped. apply Forall_forall. intros t Ht.
  specialize (Hall t Ht). specialize (Hpopped t Ht). unfold stackable in Hpopped.
  apply negb_true_iff in Hall. rewrite Hall, orb_false_r in Hpopped.
  by apply operator_not_paren in Hpopped as (_ & _ & ?).
Qed.

Lemma convert_loop_tokens tokens output opstack state :
  Forall (λ t, recognized t = true) tokens →
  Forall (λ t, evaluable t = true) output →
  Forall (λ t, stackable t = true) opstack →
  convert_loop tokens output opstack = Ok state →
  Forall (λ t, evaluable t = true) state.1 ∧ Forall (λ t, stackable t = true) state.2.
Proof.
  revert output opstack. induction tokens as [|token more IH]; intros output opstack.
  { by intros _ ? ? [= <-]. }
  intros Hall Hout Hstack. inversion Hall as [|? ? Htoken Hmore]; subst. simpl.
  destruct (convert_step token output opstack) as [st|e] eqn:Hstep; [|done]. simpl.
  destruct (convert_step_tokens _ _ _ _ Htoken Hout Hstack Hstep). by apply IH.
Qed.

(** On recognized tokens the converter returns operands and operators
    only, and raises nothing but the two parenthesis errors. *)
Lemma convert_to_postfix_recognized tokens :
  Forall (λ t, recognized t = true) tokens →
  match convert_to_postfix tokens with
  | Ok postfix => Forall (λ t, evaluable t = true) postfix
  | Raise e =>
      e = IndexError "pop from empty list" ∨ e = ValueError "Mismatched parentheses"
  end.
Proof.
  intros Hall. unfold convert_to_postfix.
  pose proof (convert_loop_paren tokens [] []) as Hparen.
  destruct (convert_loop tokens [] []) as [state|e] eqn:Hloop; simpl.
  - apply convert_loop_tokens in Hloop as [Hout Hstack]; [|done|constructor..].
    pose proof (drain_spec state.2 state.1) as Hdrain.
    destruct (drain state.2 state.1) as [postfix|e]; [|by right].
    destruct Hdrain as [-> Hzero]. apply Forall_app. split; [done|].
    apply open_parens_zero in Hzero.
    rewrite Forall_forall in Hzero, Hstack. apply Forall_forall. intros t Ht.
    specialize (Hzero t Ht). specialize (Hstack t Ht). unfold stackable in Hstack.
    apply orb_true_iff in Hstack as [Hop|Hp%String.eqb_eq]; [|done].
    by apply operator_not_paren in Hop as (_ & _ & ?).
  - left. by apply Hparen.
Qed.

(** ** The evaluator *)

(** The five behaviours of one step of the evaluator. *)
Lemma eval_step_cases token :
  (token ∈ ["P"; "Q"; "R"] ∧
   ∀ values stack results,
     eval_step values token stack results =
       (v <-! getitem values token; Ok ((token, v) :: stack, results)))
  ∨ (token ∈ ["TRUE"; "FALSE"] ∧
     ∀ values stack results,
       eval_step values token stack results =
         Ok ((token, String.eqb token "TRUE") :: stack, results))
  ∨ (token = "NOT" ∧
     ∀ values stack results,
       eval_step values token stack results =
         (a <-! pop stack;
          Ok (("~" +:+ a.1.1, negb a.1.2) :: a.2,
              results ++ [("~" +:+ a.1.1, negb a.1.2)])))
  ∨ (token ∈ ["AND"; "OR"; "IMPLIES"; "IFF"] ∧
     ∃ f : bool → bool → bool,
     ∀ values stack results,
       eval_step values token stack results =
         (b <-! pop stack;
          a <-! pop b.2;
          let label := a.1.1 +:+ " " +:+ operator_symbol token +:+ " " +:+ b.1.1 in
          Ok ((label, f a.1.2 b.1.2) :: a.2, results ++ [(label, f a.1.2 b.1.2)])))
  ∨ (evaluable token = false ∧
     ∀ values stack results,
       eval_step values token stack results =
         Raise (ValueError ("Unknown token: " +:+ token))).
Proof.
  unfold eval_step, evaluable.
  destruct (bool_decide (token ∈ variables_set)) eqn:Hv.
  { left. split; [|done]. by apply bool_decide_eq_true, in_variables in Hv. }
  destruct (bool_decide (token ∈ constants)) eqn:Hc.
  { right; left. split; [|done]. by apply bool_decide_eq_true, in_constants in Hc. }
  right; right. simpl. unfold in_dict. rewrite operators_lookup.
  destruct (decide (token = "NOT")) as [->|].
  { left. split; [done|]. intros values [|a stack] results; done. }
  right.
  destruct (decide (token = "AND")) as [->|].
  { left. split; [by left|]. eexists. by intros values [|b [|a stack]] results. }
  destruct (decide (token = "OR")) as [->|].
  { left. split; [by right; left|]. eexists. by intros values [|b [|a stack]] results. }
  destruct (decide (token = "IMPLIES")) as [->|].
  { left. split; [by do 2 right; left|]. eexists. by intros values [|b [|a stack]] results. }
  destruct (decide (token = "IFF")) as [->|].
  { left. split; [by do 3 right; left|]. eexists. by intros values [|b [|a stack]] results. }
  right. split; [|done]. apply bool_decide_eq_false. by intros [? ?].
Qed.

Lemma eval_loop_app l1 l2 values stack results :
  eval_loop (l1 ++ l2) values stack results =
    (state <-! eval_loop l1 values stack results;
     eval_loop l2 values state.1 state.2).
Proof.
  revert stack results. induction l1 as [|token l1 IH]; intros stack results; simpl.
  { done. }
  destruct (eval_step values token stack results) as [state|e]; simpl; [apply IH|done].
Qed.

(** An operand adds an entry to the stack and none to the trace; an
    operator adds to the trace the entry it pushes. *)
Lemma eval_step_trace values token stack results state :
  eval_step values token stack results = Ok state →
  if in_dict operators token
  then ∃ top, head state.1 = Some top ∧ state.2 = results ++ [top]
  else state.2 = results ∧ ∃ v, state.1 = (token, v) :: stack.
Proof.
  destruct (eval_step_cases token)
    as [[Hin Heq]|[[Hin Heq]|[[-> Heq]|[[Hin [f Heq]]|[Hin Heq]]]]];
    rewrite Heq; clear Heq.
  - split_elem_of Hin; (destruct (getitem values _) as [v|]; [|done]);
      intros [= <-]; (split; [done|by exists v]).
  - split_elem_of Hin; intros [= <-]; (split; [done|by eexists]).
  - destruct stack as [|a stack]; [done|]. intros [= <-]. by eexists.
  - assert (in_dict operators token = true) as -> by (by split_elem_of Hin).
    destruct stack as [|b [|a stack]]; try done. intros [= <-]. by eexists.
  - done.
Qed.

(** The labels pushed and recorded by a step do not depend on the
    assignment. *)
Lemma eval_step_labels token values1 values2 stack1 stack2 results1 results2
    state1 state2 :
  eval_step values1 token stack1 results1 = Ok state1 →
  eval_step values2 token stack2 results2 = Ok state2 →
  stack1.*1 = stack2.*1 →
  results1.*1 = results2.*1 →
  state1.1.*1 = state2.1.*1 ∧ state1.2.*1 = state2.2.*1.
Proof.
  destruct (eval_step_cases token)
    as [[Hin Heq]|[[Hin Heq]|[[-> Heq]|[[Hin [f Heq]]|[Hin Heq]]]]];
    rewrite !Heq; clear Heq; try done.
  - destruct (getitem values1 token); [|done]. destruct (getitem values2 token); [|done].
    intros [= <-] [= <-] Hs Hr. csimpl. split; congruence.
  - intros [= <-] [= <-] Hs Hr. csimpl. split; congruence.
  - destruct stack1 as [|[l1 v1] stack1]; [done|].
    destruct stack2 as [|[l2 v2] stack2]; [done|].
    intros [= <-] [= <-] [= -> Hs] Hr. cbn [fst snd]. rewrite !fmap_app. csimpl in *.
    split; f_equal; assumption.
  - destruct stack1 as [|[lb1 vb1] [|[la1 va1] stack1]]; try done.
    destruct stack2 as [|[lb2 vb2] [|[la2 va2] stack2]]; try done.
    intros [= <-] [= <-] [= -> -> Hs] Hr. cbn [fst snd]. rewrite !fmap_app. csimpl in *.
    split; f_equal; assumption.
Qed.

Lemma eval_loop_labels postfix values1 values2 stack1 stack2 results1 results2
    state1 state2 :
  eval_loop postfix values1 stack1 results1 = Ok state1 →
  eval_loop postfix values2 stack2 results2 = Ok state2 →
  stack1.*1 = stack2.*1 →
  results1.*1 = results2.*1 →
  state1.1.*1 = state2.1.*1 ∧ state1.2.*1 = state2.2.*1.
Proof.
  revert stack1 stack2 results1 results2.
  induction postfix as [|token more IH]; intros stack1 stack2 results1 results2; simpl.
  { by intros [= <-] [= <-]. }
  destruct (eval_step values1 token stack1 results1) as [s1|] eqn:E1; [|done].
  destruct (eval_step values2 token stack2 results2) as [s2|] eqn:E2; [|done].
  simpl. intros H1 H2 Hs Hr.
  destruct (eval_step_labels _ _ _ _ _ _ _ _ _ E1 E2 Hs Hr). by eapply IH.
Qed.

Lemma eval_loop_trace_prefix postfix values stack results state :
  eval_loop postfix values stack results = Ok state →
  ∃ added, state.2 = results ++ added ∧
    length added = length (List.filter (in_dict operators) postfix).
Proof.
  revert stack results. induction postfix as [|token more IH]; intros stack results; simpl.
  { intros [= <-]. exists []. by rewrite app_nil_r. }
  destruct (eval_step values token stack results) as [s1|] eqn:Hstep; [|done]. simpl.
  intros (added & -> & Hlen)%IH. apply eval_step_trace in Hstep.
  destruct (in_dict operators token).
  - destruct Hstep as (top & _ & ->). exists (top :: added).
    rewrite <- app_assoc. split; [done|]. simpl. by rewrite Hlen.
  - destruct Hstep as [-> _]. by exists added.
Qed.

Lemma eval_step_evaluable values token stack results e :
  evaluable token = true →
  eval_step values token stack results = Raise e →
  e = KeyError token ∨ e = IndexError "pop from empty list".
Proof.
  intros Hev.
  destruct (eval_step_cases token)
    as [[Hin Heq]|[[Hin Heq]|[[-> Heq]|[[Hin [f Heq]]|[Hin Heq]]]]];
    rewrite Heq; clear Heq; try done.
  - unfold getitem. destruct (values !! token); [done|]. intros [= <-]. by left.
  - destruct stack as [|a stack]; [|done]. intros [= <-]. by right.
  - destruct stack as [|b [|a stack]]; try done; intros [= <-]; by right.
  - congruence.
Qed.

Lemma eval_loop_evaluable postfix values stack results e :
  Forall (λ t, evaluable t = true) postfix →
  eval_loop postfix values stack results = Raise e →
  (∃ key, e = KeyError key) ∨ e = IndexError "pop from empty list".
Proof.
  intros Hall. revert stack results.
  induction Hall as [|token more Htoken _ IH]; intros stack results; simpl; [done|].
  destruct (eval_step values token stack results) as [s1|e1] eqn:Hstep; simpl.
  - apply IH.
  - intros [= <-]. apply eval_step_evaluable in Hstep as [->| ->]; eauto.
Qed.

(** A variable that the assignment lacks makes the scan raise: at that
    variable with a [KeyError], unless an earlier token raised. *)
Lemma eval_loop_missing_variable postfix values stack results x :
  x ∈ postfix → x ∈ variables_set → values !! x = None →
  ∃ e, eval_loop postfix values stack results = Raise e.
Proof.
  intros Hin Hvar Hnone. revert stack results.
  induction postfix as [|token more IH]; intros stack results; [by apply elem_of_nil in Hin|].
  simpl. destruct (eval_step values token stack results) as [s1|e1] eqn:Hstep; simpl;
    [|by eexists].
  apply elem_of_cons in Hin as [<-|Hin]; [|by apply IH].
  exfalso. unfold eval_step in Hstep.
  rewrite bool_decide_eq_true_2 in Hstep by done.
  unfold getitem in Hstep. by rewrite Hnone in Hstep.
Qed.

(** A step of the evaluator follows the depth of the stack: it returns
    exactly when the stack is deep enough for the token and, for a
    variable, when the assignment binds it. *)
Lemma eval_step_depth values token stack results :
  match eval_step values token stack results with
  | Ok state => depth_step token (length stack) = Some (length state.1)
  | Raise e =>
      depth_step token (length stack) = None ∨
      (token ∈ variables_set ∧ values !! token = None)
  end.
Proof.
  unfold depth_step.
  destruct (eval_step_cases token)
    as [[Hin Heq]|[[Hin Heq]|[[-> Heq]|[[Hin [f Heq]]|[Hin Heq]]]]];
    rewrite Heq; clear Heq.
  - assert (token ∈ variables_set) as Hvar by (by apply in_variables).
    rewrite (bool_decide_eq_true_2 _ Hvar). simpl. unfold getitem.
    destruct (values !! token); simpl; [done|by right].
  - assert (token ∈ constants) as Hc by (by apply in_constants).
    rewrite (bool_decide_eq_true_2 _ Hc), orb_true_r. done.
  - destruct stack as [|a stack]; simpl; [by left|done].
  - assert (bool_decide (token ∈ variables_set) || bool_decide (token ∈ constants)
            = false ∧ String.eqb token "NOT" = false ∧ in_dict operators token = true)
      as (-> & -> & ->) by (by split_elem_of Hin).
    destruct stack as [|b [|a stack]]; simpl; [by left|by left|done].
  - left. unfold evaluable in Hin.
    apply orb_false_iff in Hin as [-> Hop]. rewrite Hop.
    destruct (String.eqb_spec token "NOT") as [->|]; [done|done].
Qed.

Lemma eval_loop_depth postfix values stack results :
  match eval_loop postfix values stack results with
  | Ok state => stack_depth postfix (length stack) = Some (length state.1)
  | Raise e =>
      stack_depth postfix (length stack) = None ∨
      ∃ x, x ∈ postfix ∧ x ∈ variables_set ∧ values !! x = None
  end.
Proof.
  revert stack results. induction postfix as [|token more IH]; intros stack results.
  { done. }
  simpl. pose proof (eval_step_depth values token stack results) as Hstep.
  destruct (eval_step values token stack results) as [[stack' results']|e]; simpl in *.
  - rewrite Hstep. specialize (IH stack' results').
    destruct (eval_loop more values stack' results'); [done|].
    destruct IH as [?|(x & ? & ? & ?)]; [by left|right].
    exists x. split; [by right|done].
  - destruct Hstep as [->|[? ?]]; [by left|right].
    exists token. split; [by left|done].
Qed.

(** A postfix sequence that leaves one entry evaluates under every
    assignment that binds its variables. *)
Lemma evaluate_postfix_expression_returns_wf postfix values :
  stack_depth postfix 0 = Some 1%nat →
  (∀ x, x ∈ postfix → x ∈ variables_set → is_Some (values !! x)) →
  ∃ final trace, evaluate_postfix_expression postfix values = Ok (final, trace).
Proof.
  intros Hdepth Hbound. unfold evaluate_postfix_expression.
  pose proof (eval_loop_depth postfix values [] []) as Hloop.
  destruct (eval_loop postfix values [] []) as [[stack trace]|e]; simpl in *.
  - rewrite Hdepth in Hloop. injection Hloop as Hlen.
    destruct stack as [|entry [|? ?]]; try done. by eexists _, _.
  - destruct Hloop as [Hnone|(x & Hin & Hvar & Hnone)]; [congruence|].
    destruct (Hbound x Hin Hvar) as [v Hv]. congruence.
Qed.

(** ** The assignments and the rows *)

Lemma product_S {A} (pool : list A) n :
  product pool (S n) = (x ← product pool n; y ← pool; [x ++ [y]]).
Proof. reflexivity. Qed.

Lemma product_head n :
  head (product [false; true] n) = Some (replicate n false).
Proof.
  induction n as [|n IH]; [done|]. rewrite product_S.
  destruct (product [false; true] n) as [|x rest]; simplify_eq/=.
  f_equal. clear. induction n as [|n IH]; [done|]. simpl. by rewrite IH.
Qed.

Lemma product_length {A} (pool : list A) n combo :
  combo ∈ product pool n → length combo = n.
Proof.
  revert combo. induction n as [|n IH]; intros combo.
  { by intros ->%list_elem_of_singleton. }
  rewrite product_S. intros (x & Hin & Hx)%list_elem_of_bind.
  apply list_elem_of_bind in Hin as (y & ->%list_elem_of_singleton & _).
  rewrite length_app. simpl. rewrite (IH x Hx). lia.
Qed.

Lemma bits_S k n : bits (S k) n = bits k (Nat.div2 n) ++ [Nat.odd n].
Proof.
  unfold bits. rewrite seq_S, fmap_app. simpl. f_equal.
  - apply list_fmap_ext. intros i j [-> Hj]%lookup_seq.
    replace (k - 0 - (0 + i))%nat with (S (k - 1 - (0 + i))) by lia. done.
  - by replace (k - 0 - k)%nat with 0%nat by lia.
Qed.

Lemma product_bits_step k n :
  ((bits k <$> seq 0 n) ≫= λ x, y ← [false; true]; [x ++ [y]]) =
    bits (S k) <$> seq 0 (2 * n).
Proof.
  induction n as [|n IH]; [done|].
  replace (2 * S n)%nat with (S (S (2 * n))) by lia.
  rewrite !seq_S, !fmap_app, bind_app, IH, <- !app_assoc. f_equal. simpl.
  rewrite !bits_S. replace (n + (n + 0))%nat with (2 * n)%nat by lia.
  rewrite Nat.div2_double, Nat.div2_succ_double, Nat.odd_succ, Nat.odd_even,
    Nat.even_even. done.
Qed.

(** [itertools.product([False, True], repeat=k)] counts upwards in binary. *)
Lemma product_bits k : product [false; true] k = bits k <$> seq 0 (2 ^ k).
Proof.
  induction k as [|k IH]; [done|].
  by rewrite product_S, IH, product_bits_step.
Qed.

Lemma dict_snoc {V} (pairs : list (string * V)) kv :
  dict (pairs ++ [kv]) = <[kv.1 := kv.2]> (dict pairs).
Proof. unfold dict. by rewrite foldl_snoc. Qed.

Lemma dict_lookup {V} (pairs : list (string * V)) k v :
  NoDup pairs.*1 → (k, v) ∈ pairs → dict pairs !! k = Some v.
Proof.
  induction pairs as [|[k' v'] pairs IH] using rev_ind; [by intros _ ?%elem_of_nil|].
  rewrite fmap_app, dict_snoc. simpl.
  intros [Hnd [Hnotin _]]%NoDup_app [Hin|Hin%list_elem_of_singleton]%elem_of_app.
  - rewrite lookup_insert_ne; [by apply IH|].
    intros <-. apply (Hnotin k'); [|by left].
    apply list_elem_of_fmap. by exists (k', v).
  - injection Hin as -> ->. by rewrite lookup_insert_eq.
Qed.

Lemma dict_dom {V} (pairs : list (string * V)) k :
  is_Some (dict pairs !! k) ↔ k ∈ pairs.*1.
Proof.
  induction pairs as [|[k' v'] pairs IH] using rev_ind.
  { unfold dict. simpl. rewrite lookup_empty, elem_of_nil. split; [by intros [? ?]|done]. }
  rewrite fmap_app, dict_snoc, elem_of_app. csimpl. rewrite list_elem_of_singleton.
  destruct (decide (k' = k)) as [->|].
  - rewrite lookup_insert_eq. split; [by right|by eexists].
  - rewrite lookup_insert_ne by done. rewrite IH. naive_solver.
Qed.

Lemma mapM_getitem_zip (keys : list string) (vals : list bool) :
  NoDup keys → length keys = length vals →
  mapM (getitem (dict (zip keys vals))) keys = Ok vals.
Proof.
  intros Hnd Hlen.
  assert (Hall : Forall2 (λ k v, dict (zip keys vals) !! k = Some v) keys vals).
  { apply Forall2_same_length_lookup_2; [done|]. intros i k v Hk Hv.
    apply dict_lookup; [by rewrite fst_zip by lia|].
    apply list_elem_of_lookup. exists i. apply lookup_zip_with_Some. eauto. }
  generalize (dict (zip keys vals)) Hall. clear. intros d.
  induction 1 as [|k v keys vals Hk _ IH]; [done|].
  simpl. unfold getitem at 1. by rewrite Hk, IH.
Qed.

Lemma mapM_length {A B} (f : A → result B) l l' :
  mapM f l = Ok l' → length l' = length l.
Proof.
  revert l'. induction l as [|x l IH]; intros l'; simpl; [by intros [= <-]|].
  destruct (f x); [|done]. simpl. destruct (mapM f l) as [ys|]; [|done].
  intros [= <-]. simpl. by rewrite (IH ys).
Qed.

(** The variable columns: the members of [P, Q, R] present among the
    tokens, in this order. *)
Lemma vars_in_expr_filter tokens :
  vars_in_expr tokens = filter (.∈ tokens) ["P"; "Q"; "R"].
Proof.
  unfold vars_in_expr.
  assert (variables_set ∩ list_to_set (filter (.∈ variables_set) tokens)
          = list_to_set (filter (.∈ tokens) ["P"; "Q"; "R"]) :> gset string) as ->.
  { apply set_eq. intros x.
    rewrite elem_of_intersection, !elem_of_list_to_set, !list_elem_of_filter,
      in_variables. tauto. }
  destruct (decide ("P" ∈ tokens)), (decide ("Q" ∈ tokens)), (decide ("R" ∈ tokens));
    repeat first [rewrite filter_cons_True by done | rewrite filter_cons_False by done];
    rewrite filter_nil; vm_compute; reflexivity.
Qed.

Lemma vars_in_expr_NoDup tokens : NoDup (vars_in_expr tokens).
Proof.
  rewrite vars_in_expr_filter. apply NoDup_filter.
  repeat (constructor; [set_solver|]). constructor.
Qed.

Lemma product_first n :
  ∃ more, product [false; true] n = replicate n false :: more.
Proof.
  pose proof (product_head n) as H.
  destruct (product [false; true] n) as [|first more]; simplify_eq/=. by eexists.
Qed.

Lemma create_truth_table_unfold s tokens :
  tokenize_expression s = Ok tokens →
  create_truth_table s =
    let vars := vars_in_expr tokens in
    match first_run tokens with
    | Raise e => ErrorDuringEvaluation e
    | Ok (_, sub_expressions) =>
        let headers := vars ++ fromkeys (sub_expressions.*1) in
        match max_length headers with
        | Raise e => Uncaught e
        | Ok _ =>
            rows_loop tokens vars headers (product [false; true] (length vars)) [] true
        end
    end.
Proof.
  intros Htok. unfold create_truth_table, first_run. rewrite Htok.
  destruct (product_first (length (vars_in_expr tokens))) as [more Hprod].
  by rewrite Hprod.
Qed.

Lemma rows_loop_app tokens vars headers combos1 combos2 rows tautology :
  rows_loop tokens vars headers (combos1 ++ combos2) rows tautology =
    match rows_loop tokens vars headers combos1 rows tautology with
    | Table _ rows' tautology' => rows_loop tokens vars headers combos2 rows' tautology'
    | o => o
    end.
Proof.
  revert rows tautology. induction combos1 as [|combo more IH]; intros rows tautology.
  { done. }
  simpl.
  destruct (bind (convert_to_postfix tokens) _) as [[final intermediate]|[]]; try done.
  destruct (row_cells _ _ _ _); [apply IH|done].
Qed.

(** What the row loop has done when it ends with a table. *)
Lemma rows_loop_Table tokens vars headers combos rows0 tautology0 h rows tautology :
  rows_loop tokens vars headers combos rows0 tautology0 = Table h rows tautology →
  h = headers ∧
  (tautology = true ↔
     tautology0 = true ∧
     Forall (λ combo, final_value tokens vars combo = Some true) combos) ∧
  ∃ new,
    rows = rows0 ++ new ∧
    Forall2 (λ combo row,
      ∃ var_cells,
        mapM (getitem (dict (zip vars combo))) vars = Ok var_cells ∧
        take (length vars) row = var_cells) combos new.
Proof.
  revert rows0 tautology0.
  induction combos as [|combo more IH]; intros rows0 tautology0; simpl.
  { intros [= <- <- <-]. split; [done|]. split.
    - split; [by split|by intros [? _]].
    - exists []. by rewrite app_nil_r. }
  destruct (bind (convert_to_postfix tokens) _) as [[final intermediate]|[]] eqn:Hrun;
    try done.
  assert (Hfv : final_value tokens vars combo = Some final).
  { unfold final_value. by rewrite Hrun. }
  unfold row_cells.
  destruct (mapM _ vars) as [var_cells|] eqn:Hcells; [|done]. simpl.
  intros (-> & Htaut & new & -> & Hnew)%IH. split; [done|]. split.
  - rewrite Htaut, Forall_cons, Hfv. destruct final; simpl.
    + split; [intros [? ?]; by repeat split|intros (? & _ & ?); by split].
    + split; [by intros [? _]|by intros (_ & [=] & _)].
  - eexists (_ :: new). rewrite <- app_assoc. split; [done|].
    constructor; [|done]. exists var_cells. split; [done|].
    apply take_app_length'. by apply mapM_length in Hcells.
Qed.

Lemma rows_loop_not_NoVariables tokens vars headers combos rows tautology :
  rows_loop tokens vars headers combos rows tautology ≠ NoVariables.
Proof.
  revert rows tautology. induction combos as [|combo more IH]; intros rows tautology.
  { done. }
  simpl. destruct (bind (convert_to_postfix tokens) _) as [[f i]|[]]; try done.
  destruct (row_cells _ _ _ _); [apply IH|done].
Qed.

(** The "no variables" report is never produced: the list of
    combinations always holds at least the empty assignment. *)
Lemma create_truth_table_never_NoVariables s : create_truth_table s ≠ NoVariables.
Proof.
  destruct (tokenize_expression s) as [tokens|e] eqn:Htok.
  - rewrite (create_truth_table_unfold _ _ Htok). simpl.
    destruct (first_run tokens) as [[final trace]|]; [|done].
    destruct (max_length _); [|done]. apply rows_loop_not_NoVariables.
  - unfold create_truth_table. by rewrite Htok.
Qed.

(** The rows of a table: one for each combination, its variable cells
    being the combination itself. *)
Lemma table_variable_cells s tokens headers rows tautology :
  tokenize_expression s = Ok tokens →
  create_truth_table s = Table headers rows tautology →
  take (length (vars_in_expr tokens)) <$> rows
    = product [false; true] (length (vars_in_expr tokens)).
Proof.
  intros Htok Htable. set (vars := vars_in_expr tokens). set (k := length vars).
  rewrite (create_truth_table_unfold _ _ Htok) in Htable. simpl in Htable.
  destruct (first_run tokens) as [[final0 trace0]|]; [|done].
  destruct (max_length _); [|done].
  apply rows_loop_Table in Htable as (_ & _ & new & -> & Hrows).
  fold vars in Hrows. fold k in Hrows. simpl.
  assert (Hlen : Forall (λ combo, length combo = k) (product [false; true] k)).
  { apply Forall_forall. intros combo. apply product_length. }
  revert Hlen. induction Hrows as [|combo row combos new' Hrow _ IH]; [done|].
  intros [Hcombo Hlen]%Forall_cons. csimpl. rewrite IH by done. f_equal.
  destruct Hrow as (var_cells & Hcells & ->).
  rewrite mapM_getitem_zip in Hcells; [by injection Hcells|..|done].
  apply vars_in_expr_NoDup.
Qed.

(** ** Every row evaluates as the first one does *)

(** Whether a step returns depends on the token, on the depth of the stack
    and on which variables the assignment binds, not on their values. *)
Lemma eval_step_returns token values1 values2 stack1 stack2 results1 results2 state1 :
  (is_Some (values1 !! token) → is_Some (values2 !! token)) →
  length stack1 = length stack2 →
  eval_step values1 token stack1 results1 = Ok state1 →
  ∃ state2,
    eval_step values2 token stack2 results2 = Ok state2 ∧
    length state1.1 = length state2.1.
Proof.
  intros Hdom Hlen.
  destruct (eval_step_cases token)
    as [[Hin Heq]|[[Hin Heq]|[[-> Heq]|[[Hin [f Heq]]|[Hin Heq]]]]];
    rewrite !Heq; clear Heq; try done.
  - unfold getitem. destruct (values1 !! token) as [v1|]; [|done].
    destruct Hdom as [v2 ->]; [by eexists|]. intros [= <-].
    eexists. split; [done|]. simpl. by rewrite Hlen.
  - intros [= <-]. eexists. split; [done|]. simpl. by rewrite Hlen.
  - destruct stack1 as [|a1 stack1]; [done|]. destruct stack2 as [|a2 stack2]; [done|].
    intros [= <-]. eexists. split; [done|]. done.
  - destruct stack1 as [|b1 [|a1 stack1]]; try done.
    destruct stack2 as [|b2 [|a2 stack2]]; try done.
    intros [= <-]. eexists. split; [done|]. simpl in *. lia.
Qed.

Lemma eval_loop_returns postfix values1 values2 stack1 stack2 results1 results2 state1 :
  (∀ x, is_Some (values1 !! x) → is_Some (values2 !! x)) →
  length stack1 = length stack2 →
  eval_loop postfix values1 stack1 results1 = Ok state1 →
  ∃ state2,
    eval_loop postfix values2 stack2 results2 = Ok state2 ∧
    length state1.1 = length state2.1.
Proof.
  intros Hdom. revert stack1 stack2 results1 results2.
  induction postfix as [|token more IH]; intros stack1 stack2 results1 results2 Hlen; simpl.
  { intros [= <-]. by eexists. }
  destruct (eval_step values1 token stack1 results1) as [s1|] eqn:E1; [|done]. simpl.
  destruct (eval_step_returns _ _ values2 _ stack2 _ results2 _ (Hdom token) Hlen E1)
    as (s2 & -> & Hlen'). simpl. by apply IH.
Qed.

Lemma evaluate_postfix_expression_returns postfix values1 values2 r1 :
  (∀ x, is_Some (values1 !! x) → is_Some (values2 !! x)) →
  evaluate_postfix_expression postfix values1 = Ok r1 →
  ∃ r2, evaluate_postfix_expression postfix values2 = Ok r2.
Proof.
  intros Hdom. unfold evaluate_postfix_expression.
  destruct (eval_loop postfix values1 [] []) as [state1|] eqn:E1; [|done]. simpl.
  destruct (eval_loop_returns _ _ values2 _ [] _ [] _ Hdom eq_refl E1)
    as ([stack2 results2] & -> & Hlen). simpl in *. rewrite <- Hlen.
  case_bool_decide as Hone; [done|]. intros _.
  destruct stack2 as [|entry [|? ?]]; simpl in *; [lia|by eexists|lia].
Qed.

Lemma dict_zip_dom (keys : list string) (vals : list bool) x :
  length keys = length vals →
  is_Some (dict (zip keys vals) !! x) ↔ x ∈ keys.
Proof. intros Hlen. by rewrite dict_dom, fst_zip by lia. Qed.

(** Once the first evaluation has returned, the row loop prints a row for
    every combination and ends with a table. *)
Lemma rows_loop_returns tokens vars headers combos rows0 tautology0 values0 r0 :
  NoDup vars →
  (∀ x, is_Some (values0 !! x) → x ∈ vars) →
  (postfix <-! convert_to_postfix tokens; evaluate_postfix_expression postfix values0)
    = Ok r0 →
  Forall (λ combo, length combo = length vars) combos →
  ∃ rows tautology,
    rows_loop tokens vars headers combos rows0 tautology0 = Table headers rows tautology.
Proof.
  intros Hnd Hdom Hfirst Hall. revert rows0 tautology0.
  induction Hall as [|combo more Hcombo _ IH]; intros rows0 tautology0; simpl.
  { by eexists _, _. }
  destruct (convert_to_postfix tokens) as [postfix|]; [|done]. simpl in *.
  destruct (evaluate_postfix_expression_returns postfix values0
              (dict (zip vars combo)) r0) as [[final intermediate] ->]; [|done|].
  { intros x Hx%Hdom. by apply dict_zip_dom. }
  unfold row_cells. rewrite mapM_getitem_zip by done. simpl. apply IH.
Qed.

(** [create_truth_table] returns a table as soon as the expression is
    tokenized, its first evaluation returns and there is a column to print. *)
Lemma create_truth_table_returns s tokens final0 trace0 :
  tokenize_expression s = Ok tokens →
  first_run tokens = Ok (final0, trace0) →
  vars_in_expr tokens ++ fromkeys (trace0.*1) ≠ [] →
  ∃ rows tautology,
    create_truth_table s
      = Table (vars_in_expr tokens ++ fromkeys (trace0.*1)) rows tautology.
Proof.
  intros Htok Hfirst Hheaders.
  rewrite (create_truth_table_unfold _ _ Htok), Hfirst. simpl.
  destruct (vars_in_expr tokens ++ fromkeys (trace0.*1)) as [|h headers] eqn:Hh; [done|].
  simpl. rewrite <- Hh. eapply rows_loop_returns; [apply vars_in_expr_NoDup| |exact Hfirst|].
  - intros x Hx. apply dict_zip_dom in Hx; [done|]. by rewrite length_replicate.
  - apply Forall_forall. intros combo. apply product_length.
Qed.

(** The ways a call can end: the row loop never fails, and an exception
    leaves the call only from the tokenizer or from [max] on an empty list
    of headers. *)
Lemma create_truth_table_outcomes s :
  match create_truth_table s with
  | Table _ _ _ => True
  | ErrorDuringEvaluation e => ∃ tokens, tokenize_expression s = Ok tokens ∧
                                         first_run tokens = Raise e
  | Uncaught e =>
      tokenize_expression s = Raise e ∨
      ∃ tokens final0, tokenize_expression s = Ok tokens ∧
                       first_run tokens = Ok (final0, []) ∧
                       vars_in_expr tokens = [] ∧ max_length [] = Raise e
  | NoVariables | ErrorEvaluatingExpression _ _ => False
  end.
Proof.
  destruct (tokenize_expression s) as [tokens|e] eqn:Htok.
  2:{ unfold create_truth_table. rewrite Htok. by left. }
  destruct (first_run tokens) as [[final0 trace0]|e] eqn:Hfirst.
  2:{ rewrite (create_truth_table_unfold _ _ Htok), Hfirst. by exists tokens. }
  destruct (vars_in_expr tokens ++ fromkeys (trace0.*1)) as [|h headers] eqn:Hh.
  - rewrite (create_truth_table_unfold _ _ Htok), Hfirst. simpl. rewrite Hh. simpl.
    right. apply app_eq_nil in Hh as [Hvars Hkeys]. exists tokens, final0.
    split_and!; try done. by destruct trace0.
  - destruct (create_truth_table_returns _ _ _ _ Htok Hfirst) as (rows & t & ->); [|done].
    by rewrite Hh.
Qed.

(** ** More on the tokenizer *)

Lemma tokenize_expression_match s k value rest :
  match_at s = Some (k, value, rest) →
  tokenize_expression s =
    match k with
    | UNKNOWN => Raise (ValueError ("Unexpected character: " +:+ value))
    | _ => more <-! tokenize_expression rest; Ok (emit k value ++ more)
    end.
Proof.
  intros Hm. destruct s as [|c r]; [done|].
  destruct (tokenize_expression_cons c r) as (k' & value' & rest' & Hm' & _ & ->).
  rewrite Hm in Hm'. by injection Hm' as <- <- <-.
Qed.

(** Whitespace at the start of the input is skipped. *)
Lemma tokenize_expression_lstrip s :
  tokenize_expression s = tokenize_expression (span is_space s).2.
Proof.
  destruct s as [|c r]; [done|]. simpl. destruct (is_space c) eqn:Hc; [|done].
  destruct (span is_space r) as [run rest] eqn:Hspan. simpl.
  rewrite (tokenize_expression_match _ _ _ _ (match_at_space c r run rest Hc Hspan)).
  simpl. by destruct (tokenize_expression rest).
Qed.

Lemma tokenize_expression_space s :
  tokenize_expression (" " +:+ s) = tokenize_expression s.
Proof.
  rewrite (tokenize_expression_lstrip (" " +:+ s)), (tokenize_expression_lstrip s).
  change (" " +:+ s) with (String " " s). simpl.
  change (is_space " ") with true. simpl. by destruct (span is_space s).
Qed.

Lemma tokenize_expression_token token s :
  recognized token = true →
  tokenize_expression (token +:+ " " +:+ s) =
    (more <-! tokenize_expression s; Ok (token :: more)).
Proof.
  intros Hrec%recognized_cases.
  assert (∃ k, match_at (token +:+ " " +:+ s) = Some (k, token, " " +:+ s) ∧
               k ≠ UNKNOWN ∧ emit k token = [token]) as (k & Hm & Hk & Hemit).
  { split_elem_of Hrec;
      first [ by exists VARIABLE | by exists CONSTANT | by exists OPERATOR
            | by exists LPAREN | by exists RPAREN ]. }
  rewrite (tokenize_expression_match _ _ _ _ Hm), Hemit, tokenize_expression_space.
  by destruct k.
Qed.

Lemma string_forall_app f s1 s2 :
  string_forall f (s1 +:+ s2) = string_forall f s1 && string_forall f s2.
Proof.
  induction s1 as [|c s1 IH]; [done|]. rewrite append_cons. simpl.
  by rewrite IH, andb_assoc.
Qed.

Lemma string_forall_impl (f g : ascii → bool) s :
  (∀ c, f c = true → g c = true) → string_forall f s = true → string_forall g s = true.
Proof.
  intros Hfg. induction s as [|c s IH]; [done|]. simpl.
  intros [Hc Hs]%andb_true_iff. by rewrite (Hfg c Hc), IH.
Qed.

Lemma span_run f s run rest : span f s = (run, rest) → string_forall f run = true.
Proof.
  revert run rest. induction s as [|c s IH]; intros run rest; simpl.
  - by intros [= <- <-].
  - destruct (f c) eqn:Hc; [|by intros [= <- <-]].
    destruct (span f s) as [run' rest'] eqn:E. intros [= <- <-]. simpl.
    by rewrite Hc, (IH _ _ eq_refl).
Qed.

Lemma span_all_space ws s :
  all_space ws = true →
  span is_space (ws +:+ s) = ((ws +:+ (span is_space s).1), (span is_space s).2).
Proof.
  intros Hws. induction ws as [|c ws IH].
  - change ("" +:+ s) with s. by destruct (span is_space s).
  - unfold all_space in *. simpl in Hws. apply andb_true_iff in Hws as [Hc Hws].
    rewrite append_cons. simpl. by rewrite Hc, IH.
Qed.

Lemma tokenize_expression_leading ws s :
  all_space ws = true → tokenize_expression (ws +:+ s) = tokenize_expression s.
Proof.
  intros Hws.
  rewrite (tokenize_expression_lstrip (ws +:+ s)), span_all_space by done.
  cbn [snd]. by rewrite <- tokenize_expression_lstrip.
Qed.

(** The spellings and the tokens they give. *)

Ltac solve_elem_of := apply (bool_decide_unpack _); by vm_compute.

Lemma spellings_accepted :
  Forall (λ spelling, tokenize_expression spelling.1 = Ok [spelling.2]) spellings.
Proof. unfold spellings. repeat (constructor; [by vm_compute|]). constructor. Qed.

Lemma match_at_spelling v t s :
  (v, t) ∈ spellings →
  ∃ k, match_at (v +:+ s) = Some (k, v, s) ∧ k ≠ UNKNOWN ∧ emit k v = [t].
Proof.
  intros Hin. unfold spellings in Hin.
  repeat (apply elem_of_cons in Hin as [[= -> ->]|Hin]);
    try (by apply elem_of_nil in Hin);
    first [ by exists LPAREN | by exists RPAREN | by exists OPERATOR
          | by exists VARIABLE | by exists CONSTANT ].
Qed.

Lemma spelled_tokenize s tokens :
  spelled s tokens → tokenize_expression s = Ok tokens.
Proof.
  induction 1 as [|ws s tokens Hws _ IH|v t s tokens Hin _ IH]; [done|..].
  - by rewrite tokenize_expression_leading.
  - destruct (match_at_spelling v t s Hin) as (k & Hm & Hk & Hemit).
    rewrite (tokenize_expression_match _ _ _ _ Hm), IH, Hemit. by destruct k.
Qed.

Lemma tokenize_spelled s tokens :
  tokenize_expression s = Ok tokens → spelled s tokens.
Proof.
  remember (String.length s) as n eqn:Hn. revert s tokens Hn.
  induction n as [n IH] using lt_wf_ind. intros [|c r] tokens -> Hs.
  { injection Hs as <-. constructor. }
  destruct (tokenize_expression_cons c r) as (k & value & rest & Hm & Hlen & Heq).
  rewrite Heq in Hs. clear Heq.
  destruct (match_at_inv _ _ _ _ Hm) as [Hshape ->].
  destruct (tokenize_expression rest) as [more|e] eqn:Hrest; [|by destruct k].
  specialize (IH _ Hlen rest more eq_refl Hrest).
  destruct k; cbn [match_shape] in Hshape; simpl in Hs; try done; injection Hs as <-.
  - subst value. by apply (spelled_token "(" "("); [solve_elem_of|].
  - subst value. by apply (spelled_token ")" ")"); [solve_elem_of|].
  - split_elem_of Hshape; (eapply spelled_token; [solve_elem_of|done]).
  - split_elem_of Hshape; (eapply spelled_token; [solve_elem_of|done]).
  - split_elem_of Hshape; (eapply spelled_token; [solve_elem_of|done]).
  - destruct Hshape as (d & run & _ & _ & Hspan%span_run). by apply spelled_space.
Qed.

(** The spellings of a word that differ from it in the case of letters. *)

Lemma upper_char_inv c d :
  upper_char c = d → c = d ∨ c = ascii_of_nat (nat_of_ascii d + 32).
Proof. intros <-. destruct c as [[] [] [] [] [] [] [] []]; vm_compute; auto. Qed.

Lemma upper_inv_cons s d w :
  upper s = String d w →
  ∃ c r, s = String c r ∧ (c = d ∨ c = ascii_of_nat (nat_of_ascii d + 32)) ∧ upper r = w.
Proof.
  destruct s as [|c r]; [done|]. simpl. intros [= Hc Hr].
  exists c, r. split; [done|]. split; [by apply upper_char_inv|done].
Qed.

Lemma upper_inv_nil s : upper s = EmptyString → s = EmptyString.
Proof. by destruct s. Qed.

Ltac case_spellings H :=
  repeat (apply upper_inv_cons in H as (? & ? & -> & [->| ->] & H));
  apply upper_inv_nil in H as ->.

Lemma words_case_sensitive s :
  upper s ∈ ["NOT"; "AND"; "OR"; "IMPLIES"; "IFF"; "TRUE"; "FALSE"] →
  s ≠ upper s → s ≠ "or" →
  ∃ c r, s = String c r ∧
         tokenize_expression s
           = Raise (ValueError ("Unexpected character: " +:+ String c EmptyString)).
Proof.
  intros Hin Hne Hor.
  repeat (apply elem_of_cons in Hin as [Hw|Hin]); [..|by apply elem_of_nil in Hin];
    case_spellings Hw;
    first [ by destruct Hne | by destruct Hor
          | eexists _, _; split; [reflexivity|]; by vm_compute ].
Qed.

(** ** The properties of the specification *)

(** C1, as the code has it: with AND and OR on the same precedence level
    and both left-associative, ["P OR Q AND R"] is converted to the postfix
    sequence P Q OR R AND.  OR is applied to P and Q first and AND last:
    the expression groups as (P OR Q) AND R, its value is [(p || q) && r]
    and its trace is ["P v Q"] followed by ["P v Q ^ R"]. *)
Theorem or_and_groups_left :
  (tokens <-! tokenize_expression "P OR Q AND R"; convert_to_postfix tokens)
    = Ok ["P"; "Q"; "OR"; "R"; "AND"] ∧
  ∀ p q r : bool,
    evaluate_postfix_expression ["P"; "Q"; "OR"; "R"; "AND"]
      (dict [("P", p); ("Q", q); ("R", r)])
    = Ok ((p || q) && r, [("P v Q", p || q); ("P v Q ^ R", (p || q) && r)]).
Proof.
  split; [by vm_compute|]. by intros [] [] []; vm_compute.
Qed.

(** C1 as stated fails: the postfix of ["P OR Q AND R"] is not
    P Q R AND OR, and for P true, Q and R false the code computes false
    where P OR (Q AND R) is true. *)
Lemma or_and_not_and_first :
  ∃ postfix trace,
    (tokens <-! tokenize_expression "P OR Q AND R"; convert_to_postfix tokens)
      = Ok postfix ∧
    postfix ≠ ["P"; "Q"; "R"; "AND"; "OR"] ∧
    evaluate_postfix_expression postfix
      (dict [("P", true); ("Q", false); ("R", false)]) = Ok (false, trace) ∧
    true || (false && false) = true.
Proof.
  exists ["P"; "Q"; "OR"; "R"; "AND"], [("P v Q", true); ("P v Q ^ R", false)].
  split; [by vm_compute|]. split; [done|]. split; [by vm_compute|done].
Qed.

(** C2, as the code has it: the trace holds one entry for each operator
    token, in the order of evaluation, and none for an operand.  Whenever
    the evaluator returns, the length of the trace is the number of
    operator tokens; and at each token of the sequence, an operand pushes
    its entry on the stack and leaves the trace as it was, while an
    operator appends to the trace exactly the entry it pushes; what is
    recorded after a token is a prefix of the returned trace. *)
Theorem trace_records_operator_results postfix values final trace :
  evaluate_postfix_expression postfix values = Ok (final, trace) →
  length trace = length (List.filter (in_dict operators) postfix) ∧
  ∀ before token after,
    postfix = before ++ token :: after →
    ∃ state0 state1,
      eval_loop before values [] [] = Ok state0 ∧
      eval_step values token state0.1 state0.2 = Ok state1 ∧
      (if in_dict operators token
       then ∃ top, head state1.1 = Some top ∧ state1.2 = state0.2 ++ [top]
       else state1.2 = state0.2 ∧ ∃ v, state1.1 = (token, v) :: state0.1) ∧
      state1.2 `prefix_of` trace.
Proof.
  unfold evaluate_postfix_expression.
  destruct (eval_loop postfix values [] []) as [[stack results]|] eqn:Hloop; [|done].
  simpl. case_bool_decide; [done|]. destruct (last stack); [|done]. intros [= _ <-].
  split.
  { apply eval_loop_trace_prefix in Hloop as (added & Hadded & Hlen).
    simpl in Hadded. by rewrite Hadded. }
  intros before token after ->.
  rewrite eval_loop_app in Hloop.
  destruct (eval_loop before values [] []) as [state0|] eqn:H0; [|done].
  simpl in Hloop.
  destruct (eval_step values token state0.1 state0.2) as [state1|] eqn:H1; [|done].
  simpl in Hloop. exists state0, state1. split; [done|]. split; [done|].
  split; [by apply eval_step_trace in H1|].
  apply eval_loop_trace_prefix in Hloop as (added & Hadded & _). by exists added.
Qed.

Lemma trace_records_operator_results_witness :
  evaluate_postfix_expression ["P"; "NOT"] (dict [("P", true)])
    = Ok (false, [("~P", false)]) ∧
  length [("~P", false)] = length (List.filter (in_dict operators) ["P"; "NOT"]).
Proof.
  split; [by vm_compute|].
  apply (trace_records_operator_results ["P"; "NOT"] (dict [("P", true)]) false).
  by vm_compute.
Defined.

(** C2 as stated fails: evaluating the single operand P returns its value
    with an empty trace, so the operand pushed has no entry in the trace. *)
Lemma operand_not_traced :
  ∃ trace,
    evaluate_postfix_expression ["P"] (dict [("P", true)]) = Ok (true, trace) ∧
    ("P", true) ∉ trace.
Proof. exists []. split; [by vm_compute|]. apply not_elem_of_nil. Qed.

(** C3, the code at expressions without variables: the expression
    ["TRUE OR FALSE"] references no variable, yet a table with one row is
    produced and the verdict is true; for ["TRUE"] the call ends with the
    exception raised by [max] on the empty list of headers.  Neither reports
    "no variables". *)
Theorem no_variables_not_reported :
  (tokens <-! tokenize_expression "TRUE OR FALSE"; Ok (vars_in_expr tokens)) = Ok [] ∧
  create_truth_table "TRUE OR FALSE" = Table ["TRUE v FALSE"] [[true]] true ∧
  (tokens <-! tokenize_expression "TRUE"; Ok (vars_in_expr tokens)) = Ok [] ∧
  create_truth_table "TRUE" = Uncaught (ValueError "max() arg is an empty sequence").
Proof. split_and!; by vm_compute. Qed.

(** C4, as the code has it: the tokenizer is case-sensitive except for
    the variable letters and the word [or].  It succeeds exactly on the
    texts made of whitespace and of the spellings [spellings], and then
    returns the tokens of the spellings in their order; each spelling
    alone gives its token: p, q, r give P, Q, R and [or] gives OR.  The
    words NOT, AND, IMPLIES, IFF, TRUE, FALSE are matched in upper case
    only, and OR only as [or] or [OR]: any other spelling of these words
    that differs from them in the case of letters is rejected at its first
    character.  An input that is tokenized gives the same tokens once its
    letters are put in upper case, and every token returned is in upper
    case and is one of P, Q, R, TRUE, FALSE, NOT, AND, OR, IMPLIES, IFF
    and the two parentheses. *)
Theorem tokenize_upper_case :
  (∀ s tokens, tokenize_expression s = Ok tokens ↔ spelled s tokens) ∧
  Forall (λ spelling, tokenize_expression spelling.1 = Ok [spelling.2]) spellings ∧
  (∀ s, upper s ∈ ["NOT"; "AND"; "OR"; "IMPLIES"; "IFF"; "TRUE"; "FALSE"] →
        s ≠ upper s → s ≠ "or" →
        ∃ c r, s = String c r ∧
               tokenize_expression s
                 = Raise (ValueError ("Unexpected character: " +:+ String c EmptyString))) ∧
  (∀ s tokens,
     tokenize_expression s = Ok tokens →
     tokenize_expression (upper s) = Ok tokens ∧
     Forall (λ t, upper t = t ∧
                  t ∈ ["P"; "Q"; "R"; "TRUE"; "FALSE"; "NOT"; "AND"; "OR"; "IMPLIES";
                       "IFF"; "("; ")"]) tokens).
Proof.
  split_and!.
  - intros s tokens. split; [apply tokenize_spelled|apply spelled_tokenize].
  - apply spellings_accepted.
  - apply words_case_sensitive.
  - intros s tokens Htok. split; [by apply tokenize_expression_upper|].
    apply tokenize_expression_recognized in Htok.
    eapply Forall_impl; [exact Htok|]. intros t Ht%recognized_cases.
    split; [|done]. by split_elem_of Ht.
Qed.

Lemma tokenize_upper_case_witness :
  tokenize_expression "p or (q AND ~r)"
    = Ok ["P"; "OR"; "("; "Q"; "AND"; "NOT"; "R"; ")"] ∧
  tokenize_expression (upper "p or (q AND ~r)")
    = Ok ["P"; "OR"; "("; "Q"; "AND"; "NOT"; "R"; ")"] ∧
  spelled "p or (q AND ~r)" ["P"; "OR"; "("; "Q"; "AND"; "NOT"; "R"; ")"] ∧
  (∃ c r, "Not" = String c r ∧
          tokenize_expression "Not"
            = Raise (ValueError ("Unexpected character: " +:+ String c EmptyString))).
Proof.
  destruct tokenize_upper_case as (Hspelled & _ & Hwords & Hupper).
  split; [by vm_compute|].
  split; [by apply (Hupper "p or (q AND ~r)"); vm_compute|].
  split; [by apply Hspelled; vm_compute|].
  apply Hwords; [solve_elem_of|by vm_compute..].
Defined.

(** C4 as stated fails: the operator word AND is matched in upper case
    only, and in lower case its first letter is an unexpected character. *)
Lemma lowercase_and_rejected :
  tokenize_expression "P AND Q" = Ok ["P"; "AND"; "Q"] ∧
  tokenize_expression "P and Q" = Raise (ValueError "Unexpected character: a").
Proof. split; by vm_compute. Qed.

(** C5: the evaluator raises, instead of returning, whenever the scan does
    not end with exactly one entry on the stack: when the entries pushed
    and popped by the tokens do not leave exactly one, which includes an
    operator that lacks an operand; and whenever the sequence holds a
    variable that the assignment lacks.  The exception is the [ValueError]
    "Invalid postfix expression" of the final test, or the one raised
    inside the scan ([IndexError] of [pop] for a missing operand,
    [KeyError] for a missing variable).  It is reported by
    [create_truth_table], whose first evaluation catches every exception:
    the call prints the error and returns. *)
Theorem evaluate_malformed_raises postfix values :
  (¬ ∃ entry trace, eval_loop postfix values [] [] = Ok ([entry], trace)) ∨
  stack_depth postfix 0 ≠ Some 1%nat ∨
  (∃ x, x ∈ postfix ∧ x ∈ variables_set ∧ values !! x = None) →
  ∃ e,
    evaluate_postfix_expression postfix values = Raise e ∧
    (e = ValueError "Invalid postfix expression" ∨
     eval_loop postfix values [] [] = Raise e) ∧
    ∀ s tokens,
      tokenize_expression s = Ok tokens →
      convert_to_postfix tokens = Ok postfix →
      values = dict (zip (vars_in_expr tokens)
                         (replicate (length (vars_in_expr tokens)) false)) →
      create_truth_table s = ErrorDuringEvaluation e ∧
      returned (create_truth_table s) = Some false.
Proof.
  intros Hbad.
  assert (∃ e, evaluate_postfix_expression postfix values = Raise e ∧
               (e = ValueError "Invalid postfix expression" ∨
                eval_loop postfix values [] [] = Raise e)) as (e & Heval & Hkind).
  { unfold evaluate_postfix_expression.
    pose proof (eval_loop_depth postfix values [] []) as Hdepth.
    destruct Hbad as [Hnot|[Hne|(x & Hin & Hvar & Hnone)]].
    - destruct (eval_loop postfix values [] []) as [[stack trace]|e]; simpl;
        [|by eauto].
      case_bool_decide as Hlen; [by eauto|].
      destruct stack as [|entry [|? ?]]; try done. destruct Hnot. by eauto.
    - destruct (eval_loop postfix values [] []) as [[stack trace]|e]; simpl in *;
        [|by eauto].
      case_bool_decide as Hlen; [by eauto|].
      destruct Hne. rewrite Hdepth. f_equal.
      destruct (decide (length stack = 1%nat)); [done|by destruct Hlen].
    - destruct (eval_loop_missing_variable _ _ [] [] _ Hin Hvar Hnone) as [e ->].
      by eauto. }
  exists e. split; [done|]. split; [done|].
  intros s tokens Htok Hconv ->.
  rewrite (create_truth_table_unfold _ _ Htok). unfold first_run.
  by rewrite Hconv; simpl; rewrite Heval.
Qed.

Lemma evaluate_malformed_raises_witness :
  (tokens <-! tokenize_expression "P AND"; convert_to_postfix tokens)
    = Ok ["P"; "AND"] ∧
  evaluate_postfix_expression ["P"; "AND"] (dict [("P", false)])
    = Raise (IndexError "pop from empty list") ∧
  create_truth_table "P AND" = ErrorDuringEvaluation (IndexError "pop from empty list").
Proof.
  destruct (evaluate_malformed_raises ["P"; "AND"] (dict [("P", false)]))
    as (e & Heval & _ & Htable).
  { right; left. by vm_compute. }
  assert (e = IndexError "pop from empty list") as ->.
  { vm_compute in Heval. by injection Heval. }
  split; [by vm_compute|]. split; [by vm_compute|].
  by apply (Htable "P AND" ["P"; "AND"]); vm_compute.
Defined.

(** C6: the converter raises on unbalanced parentheses, in both
    directions.  When the parentheses of the tokens do not nest back to
    depth zero, [convert_to_postfix] raises; on recognized tokens the
    exception is the [IndexError] of [operators.pop()] when a [")"] finds no
    ["("] on the operator stack, and the [ValueError] "Mismatched
    parentheses" when a ["("] is left on the stack at the end.
    [create_truth_table] reports either one as an error of the
    evaluation. *)
Theorem convert_unbalanced_raises tokens :
  paren_depth tokens 0 ≠ Some 0%nat →
  ∃ e,
    convert_to_postfix tokens = Raise e ∧
    (Forall (λ t, recognized t = true) tokens →
       (paren_depth tokens 0 = None → e = IndexError "pop from empty list") ∧
       (∀ d, paren_depth tokens 0 = Some d →
             e = ValueError "Mismatched parentheses")) ∧
    ∀ s, tokenize_expression s = Ok tokens →
         create_truth_table s = ErrorDuringEvaluation e.
Proof.
  intros Hdepth.
  assert (∃ e, convert_to_postfix tokens = Raise e ∧
    (Forall (λ t, recognized t = true) tokens →
       (paren_depth tokens 0 = None → e = IndexError "pop from empty list") ∧
       (∀ d, paren_depth tokens 0 = Some d →
             e = ValueError "Mismatched parentheses"))) as (e & Hconv & Hkind).
  { unfold convert_to_postfix.
    pose proof (convert_loop_paren tokens [] []) as Hparen.
    change (open_parens []) with 0%nat in Hparen.
    destruct (convert_loop tokens [] []) as [state|e]; simpl.
    - rewrite drain_open by (intros Hz; by rewrite Hparen, Hz in Hdepth).
      eexists. split; [done|]. intros _. by rewrite Hparen.
    - exists e. split; [done|]. intros [-> Hnone]%Hparen. by rewrite Hnone. }
  exists e. split; [done|]. split; [done|]. intros s Htok.
  rewrite (create_truth_table_unfold _ _ Htok). unfold first_run.
  by rewrite Hconv.
Qed.

Lemma convert_unbalanced_raises_witness :
  tokenize_expression "(P AND Q" = Ok ["("; "P"; "AND"; "Q"] ∧
  convert_to_postfix ["("; "P"; "AND"; "Q"] = Raise (ValueError "Mismatched parentheses") ∧
  create_truth_table "(P AND Q" = ErrorDuringEvaluation (ValueError "Mismatched parentheses").
Proof.
  destruct (convert_unbalanced_raises ["("; "P"; "AND"; "Q"])
    as (e & Hconv & _ & Htable); [by vm_compute|].
  assert (e = ValueError "Mismatched parentheses") as ->.
  { vm_compute in Hconv. by injection Hconv. }
  split; [by vm_compute|]. split; [done|]. apply Htable. by vm_compute.
Defined.

(** The other direction of C6 at an input: a [")"] with no ["("] before it. *)
Example convert_unmatched_close :
  tokenize_expression "P AND Q)" = Ok ["P"; "AND"; "Q"; ")"] ∧
  convert_to_postfix ["P"; "AND"; "Q"; ")"] = Raise (IndexError "pop from empty list") ∧
  create_truth_table "P AND Q)" = ErrorDuringEvaluation (IndexError "pop from empty list").
Proof. split_and!; by vm_compute. Qed.

(** C7: for an expression that references [k ≥ 1] of the three variables
    and whose first evaluation returns, [create_truth_table] ends with a
    table of [2 ^ k] rows.  Its first [k] columns are the referenced
    variables among P, Q, R, each once and in alphabetical order, followed
    by the labels of the first trace; and the variable cells of row [n] are
    the [k] binary digits of [n], highest first: the rows count from
    all-false to all-true and the last variable varies fastest. *)
Theorem table_rows_count_in_binary s tokens final0 trace0 :
  tokenize_expression s = Ok tokens →
  first_run tokens = Ok (final0, trace0) →
  let vars := vars_in_expr tokens in
  let k := length vars in
  (1 ≤ k)%nat →
  ∃ rows tautology,
    create_truth_table s = Table (vars ++ fromkeys (trace0.*1)) rows tautology ∧
    length rows = (2 ^ k)%nat ∧
    vars = filter (.∈ tokens) ["P"; "Q"; "R"] ∧
    take k (vars ++ fromkeys (trace0.*1)) = vars ∧
    take k <$> rows = bits k <$> seq 0 (2 ^ k).
Proof.
  intros Htok Hfirst vars k Hk.
  destruct (create_truth_table_returns _ _ _ _ Htok Hfirst) as (rows & tautology & Htable).
  { fold vars. intros [Hnil _]%app_eq_nil. subst k. rewrite Hnil in Hk. simpl in Hk. lia. }
  exists rows, tautology. split; [done|].
  pose proof (table_variable_cells _ _ _ _ _ Htok Htable) as Hcells.
  fold vars k in Hcells. split_and!.
  - rewrite <- (length_fmap (take k)), Hcells, product_bits, length_fmap.
    apply length_seq.
  - apply vars_in_expr_filter.
  - by apply take_app_length.
  - by rewrite Hcells, product_bits.
Qed.

Lemma table_rows_count_in_binary_witness :
  create_truth_table "Q AND P"
    = Table ["P"; "Q"; "Q ^ P"]
        [[false; false; false]; [false; true; false];
         [true; false; false]; [true; true; true]] false ∧
  ∃ rows tautology,
    create_truth_table "Q AND P" = Table ["P"; "Q"; "Q ^ P"] rows tautology ∧
    length rows = 4%nat ∧
    ["P"; "Q"] = filter (.∈ ["Q"; "AND"; "P"]) ["P"; "Q"; "R"] ∧
    take 2 ["P"; "Q"; "Q ^ P"] = ["P"; "Q"] ∧
    take 2 <$> rows = bits 2 <$> seq 0 4.
Proof.
  split; [by vm_compute|].
  apply (table_rows_count_in_binary "Q AND P" ["Q"; "AND"; "P"] false [("Q ^ P", false)]);
    [by vm_compute..|].
  vm_compute. lia.
Defined.

(** C8: the verdict returned with a table is true exactly when the final
    value of the expression is true in every enumerated row.  The flag is
    never set back: if it is false after some first rows of the loop, the
    verdict returned is false. *)
Theorem tautology_verdict s tokens headers rows tautology :
  tokenize_expression s = Ok tokens →
  create_truth_table s = Table headers rows tautology →
  let vars := vars_in_expr tokens in
  let combinations := product [false; true] (length vars) in
  (tautology = true ↔
     Forall (λ combo, final_value tokens vars combo = Some true) combinations) ∧
  ∀ done_combos todo_combos done_rows,
    combinations = done_combos ++ todo_combos →
    rows_loop tokens vars headers done_combos [] true = Table headers done_rows false →
    tautology = false.
Proof.
  intros Htok Htable vars combinations.
  rewrite (create_truth_table_unfold _ _ Htok) in Htable. simpl in Htable.
  destruct (first_run tokens) as [[final0 trace0]|]; [|done].
  destruct (max_length _); [|done]. fold vars combinations in Htable.
  pose proof (rows_loop_Table _ _ _ _ _ _ _ _ _ Htable) as (Hh & Htaut & _).
  split; [rewrite Htaut; naive_solver|].
  intros done_combos todo_combos done_rows Hsplit Hdone.
  rewrite Hsplit, rows_loop_app, <- Hh, Hdone in Htable.
  apply rows_loop_Table in Htable as (_ & Hfalse & _).
  destruct tautology; [|done]. by destruct (proj1 Hfalse eq_refl).
Qed.

Lemma tautology_verdict_witness :
  create_truth_table "P OR ~P"
    = Table ["P"; "~P"; "P v ~P"] [[false; true; true]; [true; false; true]] true ∧
  Forall (λ combo, final_value ["P"; "OR"; "NOT"; "P"] ["P"] combo = Some true)
    [[false]; [true]].
Proof.
  split; [by vm_compute|].
  apply (tautology_verdict "P OR ~P" ["P"; "OR"; "NOT"; "P"] ["P"; "~P"; "P v ~P"]
           [[false; true; true]; [true; false; true]] true); by vm_compute.
Defined.

(** The second example of C8: ["P AND Q"] is no tautology. *)
Example and_not_tautology :
  create_truth_table "P AND Q"
    = Table ["P"; "Q"; "P ^ Q"]
        [[false; false; false]; [false; true; false];
         [true; false; false]; [true; true; true]] false ∧
  final_value ["P"; "AND"; "Q"] ["P"; "Q"] [false; false] = Some false.
Proof. split; by vm_compute. Qed.

(** C9: for one postfix sequence, two evaluations that return give traces
    with the same labels in the same order, whatever the two assignments
    are; only the values can differ. *)
Theorem trace_labels_independent postfix values1 values2 final1 final2 trace1 trace2 :
  evaluate_postfix_expression postfix values1 = Ok (final1, trace1) →
  evaluate_postfix_expression postfix values2 = Ok (final2, trace2) →
  trace1.*1 = trace2.*1.
Proof.
  unfold evaluate_postfix_expression.
  destruct (eval_loop postfix values1 [] []) as [state1|] eqn:H1; [|done].
  destruct (eval_loop postfix values2 [] []) as [state2|] eqn:H2; [|done].
  simpl. repeat case_bool_decide; try done.
  destruct (last state1.1); [|done]. destruct (last state2.1); [|done].
  intros [= _ <-] [= _ <-].
  by destruct (eval_loop_labels _ _ _ _ _ _ _ _ _ H1 H2 eq_refl eq_refl).
Qed.

Lemma trace_labels_independent_witness :
  [("~P", false); ("~P v Q", true)].*1 = [("~P", true); ("~P v Q", true)].*1.
Proof.
  apply (trace_labels_independent ["P"; "NOT"; "Q"; "OR"]
           (dict [("P", true); ("Q", true)]) (dict [("P", false); ("Q", false)])
           true true); by vm_compute.
Defined.

(** C10: every token returned by the tokenizer is one of the variables
    P, Q, R, the constants TRUE and FALSE, the two parentheses and the five
    operator names, so that neither the converter, run on these tokens, nor
    the evaluator, run on the converter's output, raises its
    "Unknown token" error. *)
Theorem unknown_token_unreachable s tokens :
  tokenize_expression s = Ok tokens →
  Forall (λ t, t ∈ ["P"; "Q"; "R"; "TRUE"; "FALSE"; "NOT"; "AND"; "OR"; "IMPLIES";
                    "IFF"; "("; ")"]) tokens ∧
  (∀ t, convert_to_postfix tokens ≠ Raise (ValueError ("Unknown token: " +:+ t))) ∧
  ∀ postfix values t,
    convert_to_postfix tokens = Ok postfix →
    evaluate_postfix_expression postfix values
      ≠ Raise (ValueError ("Unknown token: " +:+ t)).
Proof.
  intros Hrec%tokenize_expression_recognized.
  pose proof (convert_to_postfix_recognized tokens Hrec) as Hconv.
  split_and!.
  - eapply Forall_impl; [exact Hrec|]. intros t. apply recognized_cases.
  - intros t Heq. rewrite Heq in Hconv. by destruct Hconv.
  - intros postfix values t Heq. rewrite Heq in Hconv.
    unfold evaluate_postfix_expression.
    destruct (eval_loop postfix values [] []) as [state|e] eqn:Hloop; simpl.
    + case_bool_decide; [done|]. by destruct (last state.1).
    + apply eval_loop_evaluable in Hloop as [[key ->]| ->]; done.
Qed.

Lemma unknown_token_unreachable_witness :
  tokenize_expression "p -> (Q <-> ~r)"
    = Ok ["P"; "IMPLIES"; "("; "Q"; "IFF"; "NOT"; "R"; ")"] ∧
  Forall (λ t, t ∈ ["P"; "Q"; "R"; "TRUE"; "FALSE"; "NOT"; "AND"; "OR"; "IMPLIES";
                    "IFF"; "("; ")"])
    ["P"; "IMPLIES"; "("; "Q"; "IFF"; "NOT"; "R"; ")"].
Proof.
  split; [by vm_compute|].
  apply (unknown_token_unreachable "p -> (Q <-> ~r)"). by vm_compute.
Defined.

Lemma append_nil_r s : s +:+ "" = s.
Proof. induction s as [|c s IH]; [done|]. by rewrite append_cons, IH. Qed.

Lemma append_assoc s1 s2 s3 : (s1 +:+ s2) +:+ s3 = s1 +:+ s2 +:+ s3.
Proof. induction s1 as [|c s1 IH]; [done|]. by rewrite !append_cons, IH. Qed.

Lemma strip_prefix_continued lit s cont :
  no_space lit = true → starts_blank cont = true →
  strip_prefix lit (s +:+ cont) = (λ rest, rest +:+ cont) <$> strip_prefix lit s.
Proof.
  intros Hlit Hcont. revert s. induction lit as [|a lit IH]; intros s; [done|].
  simpl in Hlit. apply andb_true_iff in Hlit as [Ha%negb_true_iff Hlit].
  destruct s as [|b s].
  - simpl. destruct cont as [|c cont]; [done|]. simpl in *.
    destruct (Ascii.eqb_spec a c) as [->|]; [congruence|done].
  - rewrite append_cons. simpl. destruct (Ascii.eqb a b); [by apply IH|done].
Qed.

Lemma match_alt_continued literals s cont :
  Forall (λ lit, no_space lit = true) literals → starts_blank cont = true →
  match_alt literals (s +:+ cont)
    = (λ m, (m.1, m.2 +:+ cont)) <$> match_alt literals s.
Proof.
  intros Hlits Hcont. induction Hlits as [|lit more Hlit _ IH]; [done|].
  simpl. rewrite strip_prefix_continued by done.
  destruct (strip_prefix lit s); [done|]. apply IH.
Qed.

Lemma span_continued s cont :
  span is_space (s +:+ cont) =
    match span is_space s with
    | (run, EmptyString) =>
        let '(run', rest') := span is_space cont in (run +:+ run', rest')
    | (run, rest) => (run, rest +:+ cont)
    end.
Proof.
  induction s as [|c s IH].
  - change ("" +:+ cont) with cont. cbn [span].
    destruct (span is_space cont). reflexivity.
  - rewrite append_cons. simpl. destruct (is_space c); [|reflexivity].
    rewrite IH. destruct (span is_space s) as [run [|d rest]]; [|reflexivity].
    destruct (span is_space cont). reflexivity.
Qed.

Lemma match_spec_app spec1 spec2 s :
  match_spec (spec1 ++ spec2) s =
    match match_spec spec1 s with
    | Some m => Some m
    | None => match_spec spec2 s
    end.
Proof.
  induction spec1 as [|[k p] spec1 IH]; [done|]. simpl.
  by destruct (match_pattern p s) as [[v rest]|].
Qed.

Lemma match_at_split s :
  match_at s =
    match match_spec word_spec s with
    | Some m => Some m
    | None => match_spec [(WHITESPACE, Spaces); (UNKNOWN, Dot)] s
    end.
Proof. unfold match_at. by rewrite <- match_spec_app. Qed.

Lemma match_pattern_continued p c r cont :
  p ∈ word_spec.*2 → starts_blank cont = true →
  match_pattern p (String c r +:+ cont)
    = (λ m, (m.1, m.2 +:+ cont)) <$> match_pattern p (String c r).
Proof.
  intros Hp Hcont. unfold word_spec in Hp. simpl in Hp.
  split_elem_of Hp; cbn [match_pattern];
    try (apply match_alt_continued; [by repeat constructor|done]).
  rewrite append_cons. by destruct (mem_char c "PQRpqr").
Qed.

Lemma match_spec_continued spec c r cont :
  spec.*2 ⊆ word_spec.*2 → starts_blank cont = true →
  match_spec spec (String c r +:+ cont)
    = (λ m, (m.1, m.2 +:+ cont)) <$> match_spec spec (String c r).
Proof.
  intros Hsub Hcont. induction spec as [|[k p] spec IH]; [done|]. simpl.
  rewrite match_pattern_continued; [|apply Hsub; by left|done].
  destruct (match_pattern p (String c r)) as [[v rest]|]; [done|]. simpl.
  apply IH. intros x Hx. apply Hsub. by right.
Qed.

(** A match in [s] is found again when [s] is followed by text that starts
    with whitespace; only a run of whitespace that ends [s] grows into
    that text. *)
Lemma match_at_continued c r cont :
  starts_blank cont = true →
  ∃ k value rest,
    match_at (String c r) = Some (k, value, rest) ∧
    ((k = WHITESPACE ∧ rest = EmptyString ∧
      ∃ run, match_at (String c r +:+ cont)
               = Some (WHITESPACE, run, (span is_space cont).2)) ∨
     match_at (String c r +:+ cont) = Some (k, value, rest +:+ cont)).
Proof.
  intros Hcont. destruct (match_at_total c r) as [[[k value] rest] Hm].
  exists k, value, rest. split; [done|]. revert Hm.
  rewrite !match_at_split, match_spec_continued by done.
  destruct (match_spec word_spec (String c r)) as [[[k' v'] rest']|].
  { intros [= <- <- <-]. by right. }
  cbn [fmap option_fmap option_map match_spec match_pattern].
  rewrite span_continued.
  destruct (span is_space (String c r)) as [[|d run] rest0] eqn:Hspan.
  - assert (is_space c = false) as Hc.
    { simpl in Hspan. destruct (is_space c); [|done]. by destruct (span is_space r). }
    simpl in Hspan. rewrite Hc in Hspan. injection Hspan as <-.
    rewrite append_cons.
    destruct (Ascii.eqb c "010"); [done|]. intros [= <- <- <-]. by right.
  - intros [= <- <- <-]. destruct rest0 as [|e rest0]; [|by right].
    left. split; [done|]. split; [done|].
    destruct (span is_space cont) as [run' rest']. by eexists.
Qed.

Lemma tokenize_expression_blank cont :
  all_space cont = true → tokenize_expression cont = Ok [].
Proof.
  intros Hall. rewrite tokenize_expression_lstrip.
  assert ((span is_space cont).2 = EmptyString) as ->; [|done].
  induction cont as [|c cont IH]; [done|]. simpl in *.
  apply andb_true_iff in Hall as [-> Hall]. specialize (IH Hall).
  by destruct (span is_space cont).
Qed.

(** Text that follows whitespace is tokenized on its own. *)
Lemma tokenize_expression_continued s cont :
  starts_blank cont = true →
  tokenize_expression (s +:+ cont) =
    (tokens <-! tokenize_expression s;
     more <-! tokenize_expression cont;
     Ok (tokens ++ more)).
Proof.
  intros Hcont. remember (String.length s) as n eqn:Hn. revert s Hn.
  induction n as [n IH] using lt_wf_ind. intros [|c r] ->.
  { change ("" +:+ cont) with cont. by destruct (tokenize_expression cont). }
  destruct (match_at_continued c r cont Hcont) as (k & value & rest & Hm & Hcase).
  pose proof (match_at_length _ _ _ _ Hm) as Hlen.
  rewrite (tokenize_expression_match _ _ _ _ Hm).
  destruct Hcase as [(-> & -> & run & Hm')|Hm'];
    rewrite (tokenize_expression_match _ _ _ _ Hm').
  - rewrite <- tokenize_expression_lstrip. simpl.
    by destruct (tokenize_expression cont).
  - destruct k; try done;
      rewrite (IH _ Hlen rest eq_refl);
      (destruct (tokenize_expression rest) as [tokens|]; [|done]); simpl;
      (destruct (tokenize_expression cont) as [more|]; [|done]); simpl;
      by rewrite ?app_assoc.
Qed.

(** ** The converter and the evaluator on formulas *)

Lemma eval_step_atom values v stack results :
  eval_step values (variable_name v) stack results =
    (b <-! getitem values (variable_name v);
     Ok ((variable_name v, b) :: stack, results)).
Proof. by destruct v. Qed.

Lemma eval_step_lit values (b : bool) stack results :
  eval_step values (if b then "TRUE" else "FALSE") stack results =
    Ok ((if b then "TRUE" else "FALSE", b) :: stack, results).
Proof. by destruct b. Qed.

Lemma eval_step_not values a stack results :
  eval_step values "NOT" (a :: stack) results =
    Ok (("~" +:+ a.1, negb a.2) :: stack, results ++ [("~" +:+ a.1, negb a.2)]).
Proof. done. Qed.

Lemma eval_step_connective values c a b stack results :
  eval_step values (connective_name c) (b :: a :: stack) results =
    let entry := (a.1 +:+ " " +:+ connective_glyph c +:+ " " +:+ b.1,
                  connective_value c a.2 b.2) in
    Ok (entry :: stack, results ++ [entry]).
Proof. destruct a as [la []], b as [lb []], c; reflexivity. Qed.

(** The scan of the postfix form of a formula pushes one entry, the label
    and the truth value of the formula, and records its sub-formulas. *)
Lemma eval_loop_rpn rho values f more stack results :
  (∀ x, x ∈ formula_vars f → values !! x = Some (rho x)) →
  eval_loop (rpn f ++ more) values stack results =
    eval_loop more values ((formula_label f, truth rho f) :: stack)
      (results ++ formula_trace rho f).
Proof.
  revert more stack results.
  induction f as [v|b|f IH|c f IHf g IHg]; intros more stack results Hvars; simpl.
  - rewrite eval_step_atom. unfold getitem. rewrite Hvars by (by left). simpl.
    by rewrite app_nil_r.
  - rewrite eval_step_lit. simpl. by rewrite app_nil_r.
  - rewrite <- app_assoc, IH by done. simpl. rewrite eval_step_not. simpl.
    by rewrite <- app_assoc.
  - rewrite <- !app_assoc, IHf by (intros x Hx; apply Hvars, elem_of_app; by left).
    rewrite IHg by (intros x Hx; apply Hvars, elem_of_app; by right).
    simpl. rewrite eval_step_connective. simpl. by rewrite <- !app_assoc.
Qed.

Lemma convert_step_atom v output opstack :
  convert_step (variable_name v) output opstack = Ok (output ++ [variable_name v], opstack).
Proof. by destruct v. Qed.

Lemma convert_step_lit (b : bool) output opstack :
  convert_step (if b then "TRUE" else "FALSE") output opstack =
    Ok (output ++ [if b then "TRUE" else "FALSE"], opstack).
Proof. by destruct b. Qed.

Lemma convert_step_open output opstack :
  convert_step "(" output opstack = Ok (output, "(" :: opstack).
Proof. done. Qed.

Lemma convert_step_not_after_open output opstack :
  convert_step "NOT" output ("(" :: opstack) = Ok (output, "NOT" :: "(" :: opstack).
Proof. done. Qed.

Lemma convert_step_connective_after_open c output opstack :
  convert_step (connective_name c) output ("(" :: opstack) =
    Ok (output, connective_name c :: "(" :: opstack).
Proof. by destruct c. Qed.

Lemma convert_step_close_not output opstack :
  convert_step ")" output ("NOT" :: "(" :: opstack) = Ok (output ++ ["NOT"], opstack).
Proof. done. Qed.

Lemma convert_step_close_connective c output opstack :
  convert_step ")" output (connective_name c :: "(" :: opstack) =
    Ok (output ++ [connective_name c], opstack).
Proof. by destruct c. Qed.

(** The converter, run over a parenthesized formula, appends its postfix
    form to the output and leaves the operator stack as it found it. *)
Lemma convert_loop_parenthesized f more output opstack :
  convert_loop (parenthesized f ++ more) output opstack =
    convert_loop more (output ++ rpn f) opstack.
Proof.
  revert more output opstack.
  induction f as [v|b|f IH|c f IHf g IHg]; intros more output opstack.
  - simpl. by rewrite convert_step_atom.
  - simpl. by rewrite convert_step_lit.
  - cbn [parenthesized rpn app convert_loop]. rewrite convert_step_open. simpl.
    rewrite convert_step_not_after_open. simpl. rewrite <- app_assoc, IH. simpl.
    rewrite convert_step_close_not. simpl. by rewrite app_assoc.
  - cbn [parenthesized rpn app convert_loop]. rewrite convert_step_open. simpl.
    rewrite <- app_assoc, IHf. simpl.
    rewrite convert_step_connective_after_open. simpl.
    rewrite <- app_assoc, IHg. simpl.
    rewrite convert_step_close_connective. simpl. by rewrite !app_assoc.
Qed.

Lemma product_complete (l : list bool) : l ∈ product [false; true] (length l).
Proof.
  induction l as [|b l IH] using rev_ind; [by left|].
  rewrite length_app, Nat.add_1_r, product_S. simpl.
  apply list_elem_of_bind. exists l. split; [|done].
  destruct b; set_solver.
Qed.

Lemma truth_ext rho1 rho2 f :
  (∀ x, x ∈ formula_vars f → rho1 x = rho2 x) → truth rho1 f = truth rho2 f.
Proof.
  induction f as [v|b|f IH|c f IHf g IHg]; intros Hagree; simpl.
  - apply Hagree. by left.
  - done.
  - by rewrite IH.
  - rewrite IHf, IHg; [done|intros x Hx; apply Hagree, elem_of_app; auto..].
Qed.

Lemma formula_vars_parenthesized f x :
  x ∈ formula_vars f → x ∈ parenthesized f ∧ x ∈ ["P"; "Q"; "R"].
Proof.
  induction f as [v|b|f IH|c f IHf g IHg]; simpl.
  - intros ->%list_elem_of_singleton. split; [by left|]. destruct v; set_solver.
  - by intros ?%elem_of_nil.
  - intros [? ?]%IH. split; [|done]. do 2 right. apply elem_of_app. by left.
  - intros [[? ?]%IHf|[? ?]%IHg]%elem_of_app; (split; [|done]); right.
    + apply elem_of_app. by left.
    + apply elem_of_app. right. right. apply elem_of_app. by left.
Qed.

Lemma parenthesized_recognized f : Forall (λ t, recognized t = true) (parenthesized f).
Proof.
  induction f as [v|b|f IH|c f IHf g IHg]; simpl.
  - constructor; [by destruct v|constructor].
  - constructor; [by destruct b|constructor].
  - do 2 (constructor; [done|]). apply Forall_app. split; [done|]. by constructor.
  - constructor; [done|]. apply Forall_app. split; [done|].
    constructor; [by destruct c|]. apply Forall_app. split; [done|]. by constructor.
Qed.

Lemma evaluate_rpn rho values f :
  (∀ x, x ∈ formula_vars f → values !! x = Some (rho x)) →
  evaluate_postfix_expression (rpn f) values = Ok (truth rho f, formula_trace rho f).
Proof.
  intros Hvars. unfold evaluate_postfix_expression.
  rewrite <- (app_nil_r (rpn f)), (eval_loop_rpn rho) by done. done.
Qed.

Lemma convert_parenthesized f : convert_to_postfix (parenthesized f) = Ok (rpn f).
Proof.
  unfold convert_to_postfix.
  by rewrite <- (app_nil_r (parenthesized f)), convert_loop_parenthesized.
Qed.

Lemma render_tokens_tokenize tokens :
  Forall (λ t, recognized t = true) tokens →
  tokenize_expression (render_tokens tokens) = Ok tokens.
Proof.
  induction 1 as [|token more Htoken _ IH]; [done|].
  simpl. by rewrite tokenize_expression_token, IH.
Qed.

(** The assignment that a row's dictionary stands for. *)
Lemma final_value_parenthesized f vars combo :
  NoDup vars → length vars = length combo →
  (∀ x, x ∈ formula_vars f → x ∈ vars) →
  final_value (parenthesized f) vars combo
    = Some (truth (λ x, default false (dict (zip vars combo) !! x)) f).
Proof.
  intros Hnd Hlen Hvars. unfold final_value. rewrite convert_parenthesized. simpl.
  rewrite (evaluate_rpn (λ x, default false (dict (zip vars combo) !! x))); [done|].
  intros x Hx%Hvars. apply (dict_zip_dom vars combo x Hlen) in Hx as [v ->]. done.
Qed.

Lemma create_truth_table_verdict s tokens headers rows tautology :
  tokenize_expression s = Ok tokens →
  create_truth_table s = Table headers rows tautology →
  tautology = true ↔
    Forall (λ combo, final_value tokens (vars_in_expr tokens) combo = Some true)
      (product [false; true] (length (vars_in_expr tokens))).
Proof.
  intros Htok Htable.
  rewrite (create_truth_table_unfold _ _ Htok) in Htable. simpl in Htable.
  destruct (first_run tokens) as [[final0 trace0]|]; [|done].
  destruct (max_length _); [|done].
  apply rows_loop_Table in Htable as (_ & Htaut & _). rewrite Htaut. naive_solver.
Qed.

(** X1: the evaluator computes the truth value.  For the postfix form of
    any formula and any assignment that binds its variables, the evaluator
    returns the truth value of the formula, and a trace with one entry for
    each negation and connective of the formula, operands first, holding
    the label and the truth value of that sub-formula. *)
Theorem evaluate_formula_truth rho values f :
  (∀ x, x ∈ formula_vars f → values !! x = Some (rho x)) →
  evaluate_postfix_expression (rpn f) values = Ok (truth rho f, formula_trace rho f).
Proof. apply evaluate_rpn. Qed.

Lemma evaluate_formula_truth_witness :
  evaluate_postfix_expression ["P"; "Q"; "NOT"; "IMPLIES"] (dict [("P", true); ("Q", true)])
    = Ok (false, [("~Q", false); ("P -> ~Q", false)]).
Proof.
  apply (evaluate_formula_truth (λ _, true) (dict [("P", true); ("Q", true)])
           (Conn Implies (Atom VarP) (Neg (Atom VarQ)))).
  intros x Hx. simpl in Hx. by split_elem_of Hx.
Defined.

(** X2: the converter on parenthesized input.  For a formula written in
    infix form with every negation and every connective in its own
    parentheses, the converter returns the postfix form of the formula:
    operands first, then the operator, and no parenthesis. *)
Theorem convert_formula_postfix f :
  convert_to_postfix (parenthesized f) = Ok (rpn f).
Proof. apply convert_parenthesized. Qed.

(** X3: tokens written with spaces are read back.  A sequence of
    recognized tokens, written one after the other with a space after
    each, is tokenized to the same sequence. *)
Theorem tokenize_rendered_tokens tokens :
  Forall (λ t, recognized t = true) tokens →
  tokenize_expression (render_tokens tokens) = Ok tokens.
Proof. apply render_tokens_tokenize. Qed.

Lemma tokenize_rendered_tokens_witness :
  tokenize_expression "( NOT P ) IFF TRUE " = Ok ["("; "NOT"; "P"; ")"; "IFF"; "TRUE"].
Proof.
  apply (tokenize_rendered_tokens ["("; "NOT"; "P"; ")"; "IFF"; "TRUE"]).
  by repeat constructor.
Defined.

(** X4: the verdict is the tautology test.  For a formula with at least
    one variable, written parenthesized with a space after each token,
    [create_truth_table] ends with a table, and the verdict it returns is
    true exactly when the formula is true under every assignment. *)
Theorem truth_table_decides_tautology f :
  formula_vars f ≠ [] →
  ∃ headers rows tautology,
    create_truth_table (render_tokens (parenthesized f)) = Table headers rows tautology ∧
    (tautology = true ↔ ∀ rho, truth rho f = true).
Proof.
  intros Hnonempty.
  set (tokens := parenthesized f). set (vars := vars_in_expr tokens).
  assert (Htok : tokenize_expression (render_tokens tokens) = Ok tokens).
  { apply render_tokens_tokenize, parenthesized_recognized. }
  assert (Hnd : NoDup vars) by apply vars_in_expr_NoDup.
  assert (Hvars : ∀ x, x ∈ formula_vars f → x ∈ vars).
  { intros x [Hin Hname]%formula_vars_parenthesized.
    unfold vars. rewrite vars_in_expr_filter. by apply list_elem_of_filter. }
  assert (Hfinal : ∀ combo, length vars = length combo →
    final_value tokens vars combo
      = Some (truth (λ x, default false (dict (zip vars combo) !! x)) f)).
  { intros combo Hlen. by apply final_value_parenthesized. }
  destruct (first_run tokens) as [[final0 trace0]|e] eqn:Hfirst.
  2:{ exfalso. specialize (Hfinal (replicate (length vars) false)).
      rewrite length_replicate in Hfinal. specialize (Hfinal eq_refl).
      unfold final_value in Hfinal. unfold first_run in Hfirst. fold vars in Hfirst.
      by rewrite Hfirst in Hfinal. }
  destruct (create_truth_table_returns _ _ _ _ Htok Hfirst) as (rows & tautology & Htable).
  { fold vars. intros [Hnil _]%app_eq_nil.
    destruct (formula_vars f) as [|x ?] eqn:Hf; [done|].
    specialize (Hvars x (list_elem_of_here _ _)). rewrite Hnil in Hvars.
    by apply elem_of_nil in Hvars. }
  eexists _, rows, tautology. split; [exact Htable|].
  rewrite (create_truth_table_verdict _ _ _ _ _ Htok Htable). fold vars.
  rewrite Forall_forall. split.
  - intros Hall rho. specialize (Hall (rho <$> vars)).
    rewrite <- (length_fmap rho vars) in Hall at 1.
    specialize (Hall (product_complete _)).
    rewrite Hfinal in Hall by (by rewrite length_fmap). injection Hall as <-.
    apply truth_ext. intros x Hx%Hvars.
    rewrite (dict_lookup _ x (rho x)); [done|by rewrite fst_zip by (by rewrite length_fmap)|].
    apply list_elem_of_lookup in Hx as [i Hi]. apply list_elem_of_lookup. exists i.
    apply lookup_zip_with_Some. exists x, (rho x). by rewrite list_lookup_fmap, Hi.
  - intros Hall combo Hcombo%product_length. by rewrite Hfinal, Hall.
Qed.

Lemma truth_table_decides_tautology_witness :
  ∃ headers rows tautology,
    create_truth_table "( P OR ( NOT P ) ) "
      = Table headers rows tautology ∧
    (tautology = true ↔ ∀ rho, truth rho (Conn Or (Atom VarP) (Neg (Atom VarP))) = true).
Proof.
  apply (truth_table_decides_tautology (Conn Or (Atom VarP) (Neg (Atom VarP)))).
  by vm_compute.
Defined.

(** ** More on the converter *)

Lemma filter_keeps_all {A} (P : A → Prop) `{!∀ x, Decision (P x)} (l : list A) :
  Forall P l → filter P l = l.
Proof.
  induction 1 as [|x l Hx _ IH]; [done|]. by rewrite filter_cons_True, IH.
Qed.

Lemma filter_keeps_none {A} (P : A → Prop) `{!∀ x, Decision (P x)} (l : list A) :
  Forall (λ x, ¬ P x) l → filter P l = [].
Proof.
  induction 1 as [|x l Hx _ IH]; [done|]. by rewrite filter_cons_False.
Qed.

Lemma stackable_operator_or_open token :
  stackable token = true ↔ in_dict operators token = true ∨ token = "(".
Proof. unfold stackable. by rewrite orb_true_iff, String.eqb_eq. Qed.

Lemma operator_facts token :
  in_dict operators token = true → not_paren token ∧ ¬ operand token.
Proof.
  intros H%in_operators. unfold not_paren, operand.
  rewrite in_variables, in_constants. split_elem_of H; set_solver.
Qed.

Lemma operand_facts token :
  bool_decide (token ∈ variables_set) || bool_decide (token ∈ constants) = true →
  not_paren token ∧ operand token.
Proof.
  intros H. split.
  - apply operand_cases in H. unfold not_paren. split_elem_of H; by split.
  - unfold operand. apply orb_true_iff in H as [H|H]; apply bool_decide_eq_true in H; auto.
Qed.

Lemma convert_step_stack token output opstack state :
  Forall (λ t, stackable t = true) opstack →
  convert_step token output opstack = Ok state →
  Forall (λ t, stackable t = true) state.2.
Proof.
  intros Hstack. unfold convert_step.
  destruct (bool_decide (token ∈ variables_set) || bool_decide (token ∈ constants)).
  { by intros [= <-]. }
  destruct (in_dict operators token) eqn:Hop.
  { destruct (pop_while _ _ _) as [opstack' output'] eqn:Hpop. intros [= <-]. simpl.
    apply pop_while_spec in Hpop as (popped & -> & _).
    apply Forall_app in Hstack as [_ Hstack].
    constructor; [|done]. unfold stackable. by rewrite Hop. }
  destruct (String.eqb_spec token "(") as [->|_].
  { intros [= <-]. by constructor. }
  destruct (String.eqb token ")"); [|done].
  destruct (pop_while _ _ _) as [opstack' output'] eqn:Hpop.
  apply pop_while_spec in Hpop as (popped & -> & _).
  apply Forall_app in Hstack as [_ Hstack].
  destruct opstack' as [|top below]; [done|]. intros [= <-]. simpl. by inversion Hstack.
Qed.

(** What a step of the converter does to the tokens it holds: the token
    read joins the output or the stack unless it is a parenthesis, and
    only operators move from the stack to the output. *)
Lemma convert_step_moves token output opstack state :
  Forall (λ t, stackable t = true) opstack →
  convert_step token output opstack = Ok state →
  state.1 ++ filter not_paren state.2
    ≡ₚ output ++ filter not_paren opstack ++ filter not_paren [token] ∧
  filter operand state.1 = filter operand output ++ filter operand [token].
Proof.
  intros Hstack. unfold convert_step.
  assert (Hparen : ∀ t, t = "(" ∨ t = ")" →
            filter not_paren [t] = [] ∧ filter operand [t] = []).
  { intros t Ht. split; apply filter_keeps_none; repeat constructor.
    - intros [? ?]. by destruct Ht.
    - unfold operand. rewrite in_variables, in_constants. destruct Ht as [-> | ->]; set_solver. }
  destruct (bool_decide (token ∈ variables_set) || bool_decide (token ∈ constants))
    eqn:Hoperand.
  { apply operand_facts in Hoperand as [Hnp Hopd]. intros [= <-]. simpl.
    rewrite (filter_keeps_all not_paren [token]) by (constructor; [done|constructor]).
    rewrite filter_app, (filter_keeps_all operand [token]) by (constructor; [done|constructor]).
    split; [|done]. rewrite <- app_assoc. f_equiv. apply Permutation_app_comm. }
  destruct (in_dict operators token) eqn:Hop.
  { destruct (pop_while _ _ _) as [opstack' output'] eqn:Hpop. intros [= <-]. simpl.
    apply pop_while_spec in Hpop as (popped & -> & -> & Hall & _).
    destruct (operator_facts _ Hop) as [Hnp Hnopd].
    assert (Forall (λ t, not_paren t ∧ ¬ operand t) popped) as Hpopped.
    { eapply Forall_impl; [exact Hall|]. simpl.
      intros t [Ht _]%andb_true_iff. by apply operator_facts. }
    rewrite (filter_keeps_all not_paren [token]) by (constructor; [done|constructor]).
    rewrite (filter_keeps_none operand [token]) by (constructor; [done|constructor]).
    rewrite (filter_cons_True not_paren token) by done.
    rewrite !filter_app.
    rewrite (filter_keeps_all not_paren popped) by
      (eapply Forall_impl; [exact Hpopped|]; by intros ? [? ?]).
    rewrite (filter_keeps_none operand popped) by
      (eapply Forall_impl; [exact Hpopped|]; by intros ? [? ?]).
    rewrite !app_nil_r. split; [|done].
    rewrite <- !app_assoc. do 2 f_equiv. apply Permutation_cons_append. }
  destruct (String.eqb_spec token "(") as [->|_].
  { intros [= <-]. simpl. destruct (Hparen "(") as [-> ->]; [by left|].
    rewrite (filter_cons_False not_paren "(") by (by intros [? ?]).
    by rewrite !app_nil_r. }
  destruct (String.eqb_spec token ")") as [->|_]; [|done].
  destruct (pop_while _ _ _) as [opstack' output'] eqn:Hpop.
  apply pop_while_spec in Hpop as (popped & -> & -> & Hall & Hnext).
  apply Forall_app in Hstack as [Hpopped Hstack].
  destruct opstack' as [|top below]; [done|]. intros [= <-]. simpl.
  apply negb_false_iff, String.eqb_eq in Hnext as ->.
  assert (Forall (λ t, not_paren t ∧ ¬ operand t) popped) as Hfacts.
  { rewrite Forall_forall in Hall, Hpopped. apply Forall_forall. intros t Ht.
    specialize (Hall t Ht). specialize (Hpopped t Ht).
    apply stackable_operator_or_open in Hpopped as [Hop'| ->]; [|done].
    by apply operator_facts. }
  destruct (Hparen ")") as [-> ->]; [by right|].
  rewrite !filter_app, (filter_cons_False not_paren "(") by (by intros [? ?]).
  rewrite (filter_keeps_all not_paren popped) by
    (eapply Forall_impl; [exact Hfacts|]; by intros ? [? ?]).
  rewrite (filter_keeps_none operand popped) by
    (eapply Forall_impl; [exact Hfacts|]; by intros ? [? ?]).
  by rewrite !app_nil_r, app_assoc.
Qed.

Lemma convert_loop_moves tokens output opstack state :
  Forall (λ t, stackable t = true) opstack →
  convert_loop tokens output opstack = Ok state →
  Forall (λ t, stackable t = true) state.2 ∧
  state.1 ++ filter not_paren state.2
    ≡ₚ output ++ filter not_paren opstack ++ filter not_paren tokens ∧
  filter operand state.1 = filter operand output ++ filter operand tokens.
Proof.
  revert output opstack. induction tokens as [|token more IH]; intros output opstack Hstack.
  { intros [= <-]. simpl. by rewrite !filter_nil, !app_nil_r. }
  simpl. destruct (convert_step token output opstack) as [state1|] eqn:Hstep; [|done].
  simpl. pose proof (convert_step_stack _ _ _ _ Hstack Hstep) as Hstack1.
  destruct (convert_step_moves _ _ _ _ Hstack Hstep) as [Hperm1 Hopd1].
  intros (Hstack2 & Hperm2 & Hopd2)%IH; [|done]. split; [done|]. split.
  - rewrite Hperm2, (app_assoc state1.1), Hperm1.
    change (token :: more) with ([token] ++ more). rewrite (filter_app _ [token]).
    by rewrite <- !app_assoc.
  - rewrite Hopd2, Hopd1. change (token :: more) with ([token] ++ more).
    by rewrite (filter_app _ [token]), <- app_assoc.
Qed.

(** The result of the converter: the tokens other than parentheses,
    rearranged, with the operands in the order of the input. *)
Lemma convert_to_postfix_moves tokens postfix :
  convert_to_postfix tokens = Ok postfix →
  postfix ≡ₚ filter not_paren tokens ∧
  filter operand postfix = filter operand tokens.
Proof.
  unfold convert_to_postfix.
  destruct (convert_loop tokens [] []) as [[output opstack]|] eqn:Hloop; [|done].
  apply convert_loop_moves in Hloop as (Hstack & Hperm & Hopd); [|by constructor].
  simpl in *. pose proof (drain_spec opstack output) as Hdrain.
  destruct (drain opstack output) as [postfix'|]; [|done]. intros [= <-].
  destruct Hdrain as [-> Hzero%open_parens_zero].
  assert (Forall (λ t, not_paren t ∧ ¬ operand t) opstack) as Hfacts.
  { rewrite Forall_forall in Hzero, Hstack. apply Forall_forall. intros t Ht.
    specialize (Hzero t Ht). specialize (Hstack t Ht).
    apply stackable_operator_or_open in Hstack as [Hop| ->]; [|done].
    by apply operator_facts. }
  rewrite filter_app, (filter_keeps_none operand opstack), app_nil_r by
    (eapply Forall_impl; [exact Hfacts|]; by intros ? [? ?]).
  split; [|done].
  by rewrite <- Hperm, (filter_keeps_all not_paren opstack) by
    (eapply Forall_impl; [exact Hfacts|]; by intros ? [? ?]).
Qed.

(** On recognized tokens the converter returns exactly when the
    parentheses are balanced. *)
Lemma convert_to_postfix_returns_iff tokens :
  Forall (λ t, recognized t = true) tokens →
  paren_depth tokens 0 = Some 0%nat ↔ ∃ postfix, convert_to_postfix tokens = Ok postfix.
Proof.
  intros Hrec. unfold convert_to_postfix.
  pose proof (convert_loop_paren tokens [] []) as Hparen.
  change (open_parens []) with 0%nat in Hparen.
  destruct (convert_loop tokens [] []) as [[output opstack]|e] eqn:Hloop; simpl in *.
  - rewrite Hparen. pose proof (drain_spec opstack output) as Hdrain. split.
    + intros [= Hzero]. destruct (drain opstack output) as [postfix|] eqn:Hd; [by eexists|].
      apply convert_loop_tokens in Hloop as [_ Hstack]; [|done|constructor..].
      simpl in Hstack. exfalso. clear Hdrain Hparen. revert output Hd.
      apply open_parens_zero in Hzero.
      induction opstack as [|top below IH]; intros output; [done|]. simpl.
      inversion Hzero; inversion Hstack; subst.
      destruct (String.eqb_spec top "("); [done|]. simpl.
      destruct (String.eqb_spec top ")") as [->|]; [done|]. by apply IH.
    + intros [postfix Hd]. rewrite Hd in Hdrain. by destruct Hdrain as [_ ->].
  - destruct (Hparen Hrec) as [_ ->]. split; [done|by intros [? ?]].
Qed.

(** X5: the converter loses and invents nothing.  When it returns, its
    output holds exactly the tokens of the input other than the
    parentheses, each as often as in the input, in some order. *)
Theorem convert_keeps_tokens tokens postfix :
  convert_to_postfix tokens = Ok postfix →
  postfix ≡ₚ filter not_paren tokens.
Proof. by intros [? _]%convert_to_postfix_moves. Qed.

Lemma convert_keeps_tokens_witness :
  ["P"; "Q"; "NOT"; "AND"; "R"; "OR"]
    ≡ₚ filter not_paren ["P"; "AND"; "NOT"; "Q"; "OR"; "R"].
Proof.
  apply (convert_keeps_tokens ["P"; "AND"; "NOT"; "Q"; "OR"; "R"]). by vm_compute.
Defined.

(** X6: the converter keeps the operands in their order.  The variables
    and constants occur in the output in the order they have in the input;
    only operators are moved behind them. *)
Theorem convert_keeps_operand_order tokens postfix :
  convert_to_postfix tokens = Ok postfix →
  filter operand postfix = filter operand tokens.
Proof. by intros [_ ?]%convert_to_postfix_moves. Qed.

Lemma convert_keeps_operand_order_witness :
  filter operand ["R"; "P"; "TRUE"; "IFF"; "OR"]
    = filter operand ["R"; "OR"; "("; "P"; "IFF"; "TRUE"; ")"].
Proof.
  apply (convert_keeps_operand_order ["R"; "OR"; "("; "P"; "IFF"; "TRUE"; ")"]).
  by vm_compute.
Defined.

(** X7: balanced parentheses are all the converter asks for.  On a
    sequence of recognized tokens the converter returns a postfix sequence
    exactly when every [")"] closes a ["("] and none is left open; it does
    not check that operands and operators alternate. *)
Theorem convert_returns_iff_balanced tokens :
  Forall (λ t, recognized t = true) tokens →
  paren_depth tokens 0 = Some 0%nat ↔ ∃ postfix, convert_to_postfix tokens = Ok postfix.
Proof. apply convert_to_postfix_returns_iff. Qed.

Lemma convert_returns_iff_balanced_witness :
  paren_depth ["("; "P"; "Q"; ")"; "AND"; "AND"] 0 = Some 0%nat ↔
  ∃ postfix, convert_to_postfix ["("; "P"; "Q"; ")"; "AND"; "AND"] = Ok postfix.
Proof.
  apply (convert_returns_iff_balanced ["("; "P"; "Q"; ")"; "AND"; "AND"]).
  by repeat constructor.
Defined.

(** ** What the tokenizer accepts and rejects *)

(** The characters of a match other than UNKNOWN. *)
Lemma match_at_alphabet s k value rest :
  match_at s = Some (k, value, rest) → k ≠ UNKNOWN →
  string_forall (λ c, is_space c || mem_char c token_alphabet) value = true.
Proof.
  intros Hm Hk. destruct (match_at_inv _ _ _ _ Hm) as [Hshape _].
  destruct k; cbn [match_shape] in Hshape; try done;
    try (by subst value); try (by split_elem_of Hshape).
  destruct Hshape as (c & run & _ & _ & Hspan).
  apply span_run in Hspan. revert Hspan. apply string_forall_impl.
  by intros d ->.
Qed.

Lemma tokenize_expression_alphabet s tokens :
  tokenize_expression s = Ok tokens →
  string_forall (λ c, is_space c || mem_char c token_alphabet) s = true.
Proof.
  remember (String.length s) as n eqn:Hn. revert s tokens Hn.
  induction n as [n IH] using lt_wf_ind. intros [|c r] tokens -> Hs; [done|].
  destruct (tokenize_expression_cons c r) as (k & value & rest & Hm & Hlen & Heq).
  rewrite Heq in Hs. clear Heq.
  assert (k ≠ UNKNOWN) as Hk by (by intros ->).
  destruct (tokenize_expression rest) as [more|] eqn:Hrest; [|by destruct k].
  destruct (match_at_inv _ _ _ _ Hm) as [_ ->].
  rewrite string_forall_app, (match_at_alphabet _ _ _ _ Hm Hk). simpl.
  by eapply IH.
Qed.

Lemma in_append_r (c : ascii) s1 s2 :
  c ∈ list_ascii_of_string s2 → c ∈ list_ascii_of_string (s1 +:+ s2).
Proof.
  intros Hc. induction s1 as [|d s1 IH]; [done|]. rewrite append_cons. simpl. by right.
Qed.

Lemma mem_char_elem c chars :
  mem_char c chars = true → c ∈ list_ascii_of_string chars.
Proof.
  induction chars as [|d chars IH]; simpl; [done|].
  destruct (Ascii.eqb_spec c d) as [->|]; simpl; [by left|]. intros H. right. by apply IH.
Qed.

Lemma tokenize_expression_raises s e :
  tokenize_expression s = Raise e →
  ∃ c, e = ValueError ("Unexpected character: " +:+ String c EmptyString) ∧
       c ∈ list_ascii_of_string s ∧
       is_space c = false ∧ mem_char c single_char_tokens = false.
Proof.
  remember (String.length s) as n eqn:Hn. revert s Hn.
  induction n as [n IH] using lt_wf_ind. intros [|c r] -> Hs; [done|].
  destruct (tokenize_expression_cons c r) as (k & value & rest & Hm & Hlen & Heq).
  rewrite Heq in Hs. clear Heq.
  destruct (match_at_inv _ _ _ _ Hm) as [Hshape Hsplit].
  assert (k = UNKNOWN ∨ k ≠ UNKNOWN) as [->|Hk] by (destruct k; auto).
  - destruct Hshape as [d ->]. injection Hs as <-. rewrite append_cons in Hsplit.
    injection Hsplit as <- _. exists c. split; [done|]. split; [by left|].
    split.
    + destruct (is_space c) eqn:Hc; [|done].
      destruct (span is_space r) as [run rest'] eqn:Hspan.
      by rewrite (match_at_space c r run rest' Hc Hspan) in Hm.
    + destruct (mem_char c single_char_tokens) eqn:Hc; [|done].
      apply mem_char_elem in Hc. simpl in Hc. split_elem_of Hc; by compute in Hm.
  - destruct (tokenize_expression rest) as [more|e'] eqn:Hrest; [by destruct k|].
    assert (e' = e) as -> by (destruct k; simpl in Hs; congruence).
    destruct (IH _ Hlen rest eq_refl Hrest) as (d & -> & Hd & Hfacts).
    exists d. split; [done|]. split; [|done]. rewrite Hsplit. by apply in_append_r.
Qed.

(** X8: whitespace separates.  When two texts are joined by whitespace,
    the tokens of the whole are the tokens of the first followed by the
    tokens of the second; the error of the whole is the error of the first
    text, or else of the second.  In particular whitespace before or after a
    text changes nothing. *)
Theorem tokenize_separated s1 ws s2 :
  all_space ws = true → ws ≠ EmptyString →
  tokenize_expression (s1 +:+ ws +:+ s2) =
    (tokens1 <-! tokenize_expression s1;
     tokens2 <-! tokenize_expression s2;
     Ok (tokens1 ++ tokens2)).
Proof.
  intros Hws Hne. rewrite tokenize_expression_continued.
  - by rewrite tokenize_expression_leading.
  - destruct ws as [|c ws]; [done|]. rewrite append_cons. simpl.
    unfold all_space in Hws. simpl in Hws. by apply andb_true_iff in Hws as [-> _].
Qed.

Lemma tokenize_separated_witness :
  tokenize_expression "(P->Q)  ~R" = Ok ["("; "P"; "IMPLIES"; "Q"; ")"; "NOT"; "R"].
Proof.
  change "(P->Q)  ~R" with ("(P->Q)" +:+ "  " +:+ "~R").
  rewrite (tokenize_separated "(P->Q)" "  " "~R"); by vm_compute.
Defined.

(** X9: only the characters of the language pass.  A text that is
    tokenized consists of whitespace and of characters that occur in the
    tokens; the tokenizer never accepts a text with any other character. *)
Theorem tokenize_accepts_alphabet_only s tokens :
  tokenize_expression s = Ok tokens →
  string_forall (λ c, is_space c || mem_char c token_alphabet) s = true.
Proof. apply tokenize_expression_alphabet. Qed.

Lemma tokenize_accepts_alphabet_only_witness :
  string_forall (λ c, is_space c || mem_char c token_alphabet) "p or ~TRUE" = true.
Proof.
  apply (tokenize_accepts_alphabet_only "p or ~TRUE" ["P"; "OR"; "NOT"; "TRUE"]).
  by vm_compute.
Defined.

(** X10: the one error of the tokenizer.  When the tokenizer raises, the
    exception is a [ValueError] whose message names one character of the
    input, a character that is not whitespace and is not a token on its
    own. *)
Theorem tokenize_raises_unexpected_character s e :
  tokenize_expression s = Raise e →
  ∃ c, e = ValueError ("Unexpected character: " +:+ String c EmptyString) ∧
       c ∈ list_ascii_of_string s ∧
       is_space c = false ∧ mem_char c single_char_tokens = false.
Proof. apply tokenize_expression_raises. Qed.

Lemma tokenize_raises_unexpected_character_witness :
  ∃ c, ValueError "Unexpected character: &"
         = ValueError ("Unexpected character: " +:+ String c EmptyString) ∧
       c ∈ list_ascii_of_string "P & Q" ∧
       is_space c = false ∧ mem_char c single_char_tokens = false.
Proof.
  apply (tokenize_raises_unexpected_character "P & Q"). by vm_compute.
Defined.

(** ** More on the evaluator and the table *)

Lemma length_append s1 s2 :
  String.length (s1 +:+ s2) = (String.length s1 + String.length s2)%nat.
Proof. induction s1 as [|c s1 IH]; [done|]. rewrite append_cons. simpl. by rewrite IH. Qed.

Lemma eval_step_top_is_recorded values token stack results state :
  top_is_recorded stack results →
  eval_step values token stack results = Ok state →
  top_is_recorded state.1 state.2.
Proof.
  intros Hinv.
  destruct (eval_step_cases token)
    as [[Hin Heq]|[[Hin Heq]|[[-> Heq]|[[Hin [f Heq]]|[Hin Heq]]]]];
    rewrite Heq; clear Heq; try done.
  - destruct (getitem values token); [|done]. intros [= <-]. simpl.
    destruct Hinv as [?|[(entry & -> & ?)|[-> ->]]]; unfold top_is_recorded; simpl.
    + left. lia.
    + left. lia.
    + right. left. eexists. split; [done|]. by right.
  - intros [= <-]. simpl.
    destruct Hinv as [?|[(entry & -> & ?)|[-> ->]]]; unfold top_is_recorded; simpl.
    + left. lia.
    + left. lia.
    + right. left. eexists. split; [done|]. by right.
  - destruct stack as [|a stack]; [done|]. intros [= <-]. simpl.
    destruct stack as [|b stack].
    + right. left. eexists. split; [done|]. left. apply last_snoc.
    + left. simpl. lia.
  - destruct stack as [|b [|a stack]]; try done. intros [= <-]. simpl.
    destruct stack as [|c stack].
    + right. left. eexists. split; [done|]. left. apply last_snoc.
    + left. simpl. lia.
Qed.

Lemma eval_loop_top_is_recorded postfix values stack results state :
  top_is_recorded stack results →
  eval_loop postfix values stack results = Ok state →
  top_is_recorded state.1 state.2.
Proof.
  revert stack results. induction postfix as [|token more IH]; intros stack results Hinv.
  { by intros [= <-]. }
  simpl. destruct (eval_step values token stack results) as [state1|] eqn:Hstep; [|done].
  simpl. apply IH. by eapply eval_step_top_is_recorded.
Qed.

(** Without an operator the scan pushes one entry for each token. *)
Lemma eval_loop_operands postfix values stack results state :
  List.filter (in_dict operators) postfix = [] →
  eval_loop postfix values stack results = Ok state →
  length state.1 = (length postfix + length stack)%nat ∧
  Forall (λ t, in_dict operators t = false) postfix.
Proof.
  revert stack results. induction postfix as [|token more IH]; intros stack results.
  { by intros _ [= <-]. }
  simpl. destruct (in_dict operators token) eqn:Hop; [done|]. intros Hnone.
  destruct (eval_step values token stack results) as [state1|] eqn:Hstep; [|done].
  simpl. apply eval_step_trace in Hstep. rewrite Hop in Hstep.
  destruct Hstep as [_ [v Hv]]. intros [Hlen Hall]%IH; [|done].
  rewrite Hlen, Hv. simpl. split; [lia|by constructor].
Qed.

(** The labels: those on the stack are not empty, those in the trace are
    at least two characters long, so no trace label is a variable name. *)
Lemma eval_step_label_lengths values token stack results state :
  Forall (λ e, 1 ≤ String.length e.1)%nat stack →
  Forall (λ e, 2 ≤ String.length e.1)%nat results →
  eval_step values token stack results = Ok state →
  Forall (λ e, 1 ≤ String.length e.1)%nat state.1 ∧
  Forall (λ e, 2 ≤ String.length e.1)%nat state.2.
Proof.
  intros Hstack Hresults.
  destruct (eval_step_cases token)
    as [[Hin Heq]|[[Hin Heq]|[[-> Heq]|[[Hin [f Heq]]|[Hin Heq]]]]];
    rewrite Heq; clear Heq; try done.
  - destruct (getitem values token); [|done]. intros [= <-]. simpl.
    split; [|done]. constructor; [|done]. simpl. split_elem_of Hin; simpl; lia.
  - intros [= <-]. simpl.
    split; [|done]. constructor; [|done]. simpl. split_elem_of Hin; simpl; lia.
  - destruct stack as [|a stack]; [done|]. intros [= <-]. simpl.
    inversion Hstack as [|? ? Ha Hrest]; subst.
    assert (2 ≤ String.length ("~" +:+ a.1))%nat by (rewrite length_append; simpl; lia).
    split; [constructor; [simpl; lia|done]|].
    apply Forall_app. split; [done|]. by constructor.
  - destruct stack as [|b [|a stack]]; try done. intros [= <-]. simpl.
    inversion Hstack as [|? ? Hb Hrest]; subst. inversion Hrest as [|? ? Ha Hrest']; subst.
    assert (2 ≤ String.length (a.1 +:+ " " +:+ operator_symbol token +:+ " " +:+ b.1))%nat
      by (rewrite !length_append; simpl; lia).
    split; [constructor; [simpl; lia|done]|].
    apply Forall_app. split; [done|]. by constructor.
Qed.

Lemma eval_loop_label_lengths postfix values stack results state :
  Forall (λ e, 1 ≤ String.length e.1)%nat stack →
  Forall (λ e, 2 ≤ String.length e.1)%nat results →
  eval_loop postfix values stack results = Ok state →
  Forall (λ e, 2 ≤ String.length e.1)%nat state.2.
Proof.
  revert stack results. induction postfix as [|token more IH];
    intros stack results Hstack Hresults.
  { by intros [= <-]. }
  simpl. destruct (eval_step values token stack results) as [state1|] eqn:Hstep; [|done].
  simpl. destruct (eval_step_label_lengths _ _ _ _ _ Hstack Hresults Hstep). by apply IH.
Qed.

Lemma evaluate_postfix_expression_inv postfix values final trace :
  evaluate_postfix_expression postfix values = Ok (final, trace) →
  ∃ label, eval_loop postfix values [] [] = Ok ([(label, final)], trace).
Proof.
  unfold evaluate_postfix_expression.
  destruct (eval_loop postfix values [] []) as [[stack results]|]; [|done]. simpl.
  case_bool_decide as Hlen; [done|].
  destruct stack as [|[label v] [|? ?]]; simpl in *; try done; try (destruct Hlen; lia).
  intros [= <- <-]. by exists label.
Qed.

(** [dict.fromkeys]: each key once, and no other. *)
Lemma fromkeys_from_spec seen keys :
  NoDup (fromkeys_from seen keys) ∧
  ∀ x, x ∈ fromkeys_from seen keys ↔ x ∈ keys ∧ x ∉ seen.
Proof.
  revert seen. induction keys as [|key more IH]; intros seen; simpl.
  { split; [constructor|]. intros x. rewrite elem_of_nil. tauto. }
  case_bool_decide as Hseen.
  - destruct (IH seen) as [Hnd Hin]. split; [done|]. intros x.
    rewrite Hin, elem_of_cons. split; [tauto|]. intros [[->|?] ?]; tauto.
  - destruct (IH (key :: seen)) as [Hnd Hin]. split.
    + constructor; [|done]. rewrite Hin, elem_of_cons. tauto.
    + intros x. rewrite !elem_of_cons, Hin, elem_of_cons.
      destruct (decide (x = key)) as [->|]; tauto.
Qed.

Lemma fromkeys_spec keys :
  NoDup (fromkeys keys) ∧ ∀ x, x ∈ fromkeys keys ↔ x ∈ keys.
Proof.
  destruct (fromkeys_from_spec [] keys) as [Hnd Hin]. split; [done|].
  intros x. rewrite (Hin x), elem_of_nil. tauto.
Qed.

Lemma create_truth_table_inv s tokens headers rows tautology :
  tokenize_expression s = Ok tokens →
  create_truth_table s = Table headers rows tautology →
  ∃ final0 trace0,
    first_run tokens = Ok (final0, trace0) ∧
    headers = vars_in_expr tokens ++ fromkeys (trace0.*1) ∧
    rows_loop tokens (vars_in_expr tokens) headers
      (product [false; true] (length (vars_in_expr tokens))) [] true
      = Table headers rows tautology.
Proof.
  intros Htok Htable.
  rewrite (create_truth_table_unfold _ _ Htok) in Htable. simpl in Htable.
  destruct (first_run tokens) as [[final0 trace0]|]; [|done].
  destruct (max_length _) eqn:Hmax; [|done].
  pose proof (rows_loop_Table _ _ _ _ _ _ _ _ _ Htable) as (Hh & _).
  exists final0, trace0. split; [done|]. split; [done|]. by rewrite Hh at 1.
Qed.

(** The rows of the table, one for each combination: the cells of the row
    computed from the trace of that combination. *)
Lemma rows_loop_rows tokens vars headers combos rows0 tautology0 h rows tautology :
  rows_loop tokens vars headers combos rows0 tautology0 = Table h rows tautology →
  ∃ new,
    rows = rows0 ++ new ∧
    Forall2 (λ combo row,
      ∃ final trace,
        (postfix <-! convert_to_postfix tokens;
         evaluate_postfix_expression postfix (dict (zip vars combo))) = Ok (final, trace) ∧
        row_cells vars headers (dict (zip vars combo)) trace = Ok row) combos new.
Proof.
  revert rows0 tautology0.
  induction combos as [|combo more IH]; intros rows0 tautology0; simpl.
  { intros [= <- <- <-]. exists []. by rewrite app_nil_r. }
  destruct (bind (convert_to_postfix tokens) _) as [[final trace]|[]] eqn:Hrun; try done.
  destruct (row_cells _ _ _ _) as [row|] eqn:Hrow; [|done].
  intros (new & -> & Hnew)%IH. exists (row :: new). rewrite <- app_assoc.
  split; [done|]. constructor; [|done]. by exists final, trace.
Qed.

Lemma create_truth_table_row_lengths s tokens headers rows tautology :
  tokenize_expression s = Ok tokens →
  create_truth_table s = Table headers rows tautology →
  Forall (λ row, length row = length headers) rows.
Proof.
  intros Htok Htable.
  destruct (create_truth_table_inv _ _ _ _ _ Htok Htable) as (final0 & trace0 & _ & Hh & Hloop).
  apply rows_loop_rows in Hloop as (new & -> & Hrows). simpl.
  apply Forall_forall. intros row Hrow.
  apply list_elem_of_lookup in Hrow as [i Hi].
  destruct (Forall2_lookup_r _ _ _ _ _ Hrows Hi) as (combo & Hcombo & final & trace & _ & Hcells).
  unfold row_cells in Hcells.
  destruct (mapM (getitem _) _) as [cells|] eqn:Hmap; [|done]. simpl in Hcells.
  injection Hcells as <-. apply mapM_length in Hmap.
  rewrite length_app, length_fmap, length_drop, Hh, length_app, <- Hmap. lia.
Qed.

Lemma evaluate_postfix_expression_labels postfix values1 values2 r1 r2 :
  evaluate_postfix_expression postfix values1 = Ok r1 →
  evaluate_postfix_expression postfix values2 = Ok r2 →
  r1.2.*1 = r2.2.*1.
Proof.
  destruct r1 as [final1 trace1], r2 as [final2 trace2].
  intros [l1 H1]%evaluate_postfix_expression_inv [l2 H2]%evaluate_postfix_expression_inv.
  by destruct (eval_loop_labels _ _ _ _ _ _ _ _ _ H1 H2 eq_refl eq_refl).
Qed.

Lemma dict_lookup_elem {V} (pairs : list (string * V)) k v :
  dict pairs !! k = Some v → (k, v) ∈ pairs.
Proof.
  induction pairs as [|[k' v'] pairs IH] using rev_ind; [done|].
  rewrite dict_snoc, elem_of_app, list_elem_of_singleton. simpl.
  destruct (decide (k' = k)) as [->|].
  - rewrite lookup_insert_eq. intros [= ->]. by right.
  - rewrite lookup_insert_ne by done. intros ?%IH. by left.
Qed.

Lemma first_run_label_lengths tokens final0 trace0 :
  first_run tokens = Ok (final0, trace0) →
  Forall (λ e, 2 ≤ String.length e.1)%nat trace0.
Proof.
  unfold first_run. destruct (convert_to_postfix tokens) as [postfix|]; [|done]. simpl.
  intros [label Hloop]%evaluate_postfix_expression_inv.
  by apply eval_loop_label_lengths in Hloop; [|constructor..].
Qed.

(** X11: the value returned is the last value recorded.  When the
    evaluator returns with a trace that is not empty, the final value is
    the value of the last entry of the trace; the trace is empty only for
    a sequence made of a single operand. *)
Theorem final_value_is_last_recorded postfix values final trace :
  evaluate_postfix_expression postfix values = Ok (final, trace) →
  match last trace with
  | Some entry => entry.2 = final
  | None => ∃ token, postfix = [token] ∧ operand token
  end.
Proof.
  intros [label Hloop]%evaluate_postfix_expression_inv.
  pose proof (eval_loop_top_is_recorded _ _ [] [] _
                (or_intror (or_intror (conj eq_refl eq_refl))) Hloop) as Hinv.
  simpl in Hinv.
  destruct Hinv as [Hlen|[(entry & [= <-] & [Hlast| ->])|[[=] _]]]; [simpl in Hlen; lia|..].
  { by rewrite Hlast. }
  simpl. pose proof (eval_loop_trace_prefix _ _ _ _ _ Hloop) as (added & Hadded & Hcount).
  simpl in Hadded. subst added. simpl in Hcount.
  destruct (List.filter (in_dict operators) postfix) eqn:Hnone; [|done].
  destruct (eval_loop_operands _ _ _ _ _ Hnone Hloop) as [Hlen Hall]. simpl in Hlen.
  destruct postfix as [|token [|? ?]]; simpl in Hlen; try lia.
  exists token. split; [done|]. inversion Hall as [|? ? Hop _]; subst.
  simpl in Hloop. destruct (eval_step values token [] []) as [state|] eqn:Hstep; [|done].
  revert Hstep. unfold operand. rewrite in_variables, in_constants.
  destruct (eval_step_cases token)
    as [[Hin Heq]|[[Hin Heq]|[[-> Heq]|[[Hin [f Heq]]|[Hin Heq]]]]];
    rewrite Heq; clear Heq; try done; auto.
Qed.

Lemma final_value_is_last_recorded_witness :
  (("P ^ Q v R", true) : string * bool).2 = true.
Proof.
  apply (final_value_is_last_recorded ["P"; "Q"; "AND"; "R"; "OR"]
           (dict [("P", false); ("Q", true); ("R", true)]) true
           [("P ^ Q", false); ("P ^ Q v R", true)]).
  by vm_compute.
Defined.

(** X12: the headers are distinct.  The headers of a table are the
    variables of the expression followed by the labels of the first trace,
    each label once: no two columns have the same header, and no label of
    a sub-expression is the name of a variable. *)
Theorem table_headers_distinct s tokens headers rows tautology :
  tokenize_expression s = Ok tokens →
  create_truth_table s = Table headers rows tautology →
  NoDup headers ∧
  ∀ final0 trace0,
    first_run tokens = Ok (final0, trace0) →
    ∀ label, label ∈ headers ↔ label ∈ vars_in_expr tokens ∨ label ∈ trace0.*1.
Proof.
  intros Htok Htable.
  destruct (create_truth_table_inv _ _ _ _ _ Htok Htable) as (final0 & trace0 & Hfirst & -> & _).
  destruct (fromkeys_spec (trace0.*1)) as [Hnd Hin]. split.
  - apply NoDup_app. split; [apply vars_in_expr_NoDup|]. split; [|done].
    intros x Hvar Hlabel%Hin. rewrite vars_in_expr_filter in Hvar.
    apply list_elem_of_filter in Hvar as [_ Hvar].
    apply list_elem_of_fmap in Hlabel as ([label v] & -> & Hentry).
    pose proof (first_run_label_lengths _ _ _ Hfirst) as Hlen.
    rewrite Forall_forall in Hlen. specialize (Hlen _ Hentry). simpl in *.
    split_elem_of Hvar; simpl in Hlen; lia.
  - intros final1 trace1 Hfirst1. rewrite Hfirst in Hfirst1. injection Hfirst1 as <- <-.
    intros label. by rewrite elem_of_app, Hin.
Qed.

Lemma table_headers_distinct_witness :
  NoDup ["P"; "Q"; "P ^ Q"; "P ^ Q v P ^ Q"].
Proof.
  apply (table_headers_distinct "(P AND Q) OR (P AND Q)"
           ["("; "P"; "AND"; "Q"; ")"; "OR"; "("; "P"; "AND"; "Q"; ")"]
           ["P"; "Q"; "P ^ Q"; "P ^ Q v P ^ Q"]
           [[false; false; false; false]; [false; true; false; false];
            [true; false; false; false]; [true; true; true; true]] false);
    by vm_compute.
Defined.

(** X13: the rows are aligned with the headers.  Every row of a table has
    one cell for each header. *)
Theorem table_rows_aligned s tokens headers rows tautology :
  tokenize_expression s = Ok tokens →
  create_truth_table s = Table headers rows tautology →
  Forall (λ row, length row = length headers) rows.
Proof. apply create_truth_table_row_lengths. Qed.

Lemma table_rows_aligned_witness :
  Forall (λ row, length row = length ["P"; "~P"; "P v ~P"])
    [[false; true; true]; [true; false; true]].
Proof.
  apply (table_rows_aligned "P OR ~P" ["P"; "OR"; "NOT"; "P"] _ _ true); by vm_compute.
Defined.

(** X14: every cell comes from the trace of its row.  In each row of a
    table the variable cells are the values of the combination, and the
    cell under each sub-expression header is a value recorded under that
    label by the evaluation of that row: the label is always found, and
    the default of the lookup is never used. *)
Theorem table_cells_from_trace s tokens headers rows tautology :
  tokenize_expression s = Ok tokens →
  create_truth_table s = Table headers rows tautology →
  let vars := vars_in_expr tokens in
  Forall2 (λ combo row,
    ∃ final trace cells,
      (postfix <-! convert_to_postfix tokens;
       evaluate_postfix_expression postfix (dict (zip vars combo))) = Ok (final, trace) ∧
      row = combo ++ cells ∧
      Forall2 (λ label cell, dict trace !! label = Some cell ∧ (label, cell) ∈ trace)
        (drop (length vars) headers) cells)
    (product [false; true] (length vars)) rows.
Proof.
  intros Htok Htable vars.
  destruct (create_truth_table_inv _ _ _ _ _ Htok Htable)
    as (final0 & trace0 & Hfirst & Hh & Hloop).
  fold vars in Hh, Hloop. apply rows_loop_rows in Hloop as (new & -> & Hrows). simpl.
  assert (Hlens : Forall (λ combo, length combo = length vars)
                    (product [false; true] (length vars))).
  { apply Forall_forall. intros combo. apply product_length. }
  revert Hlens Hrows. generalize (product [false; true] (length vars)) new.
  intros combos rows' Hlens Hrows. clear Htable.
  induction Hrows as [|combo row combos new' Hrow _ IH]; [constructor|].
  apply Forall_cons in Hlens as [Hcombo Hlens]. constructor; [|by apply IH].
  destruct Hrow as (final & trace & Hrun & Hcells).
  unfold row_cells in Hcells.
  rewrite mapM_getitem_zip in Hcells by (done || apply vars_in_expr_NoDup).
  injection Hcells as <-. eexists final, trace, _. split; [done|]. split; [reflexivity|].
  apply Forall2_fmap_r, Forall_Forall2_diag, Forall_forall. intros label Hlabel.
  assert (is_Some (dict trace !! label)) as [cell Hcell].
  { apply dict_dom. unfold first_run in Hfirst. fold vars in Hfirst.
    destruct (convert_to_postfix tokens) as [postfix|]; [|done]. simpl in *.
    pose proof (evaluate_postfix_expression_labels _ _ _ _ _ Hrun Hfirst) as Hlabels.
    simpl in Hlabels. rewrite Hlabels. apply (proj2 (fromkeys_spec _)).
    rewrite Hh, drop_app_length in Hlabel. done. }
  unfold compose. rewrite Hcell. split; [reflexivity|]. by apply dict_lookup_elem.
Qed.

Lemma table_cells_from_trace_witness :
  Forall2 (λ combo row,
    ∃ final trace cells,
      (postfix <-! convert_to_postfix ["NOT"; "P"];
       evaluate_postfix_expression postfix (dict (zip ["P"] combo))) = Ok (final, trace) ∧
      row = combo ++ cells ∧
      Forall2 (λ label cell, dict trace !! label = Some cell ∧ (label, cell) ∈ trace)
        (drop 1 ["P"; "~P"]) cells)
    [[false]; [true]] [[false; true]; [true; false]].
Proof.
  apply (table_cells_from_trace "~P" ["NOT"; "P"] ["P"; "~P"]
           [[false; true]; [true; false]] false); by vm_compute.
Defined.

(** ** Statements read from the file or typed *)

Lemma rstrip_spec s : ∃ ws, all_space ws = true ∧ s = rstrip s +:+ ws.
Proof.
  induction s as [|c r (ws & Hws & Hr)]; [by exists EmptyString|]. simpl.
  destruct (rstrip r) as [|d kept] eqn:Hkept.
  - change ("" +:+ ws) with ws in Hr. subst r.
    destruct (is_space c) eqn:Hc.
    + exists (String c ws). split; [|done]. unfold all_space in *. simpl. by rewrite Hc.
    + by exists ws.
  - exists ws. split; [done|]. rewrite append_cons. by f_equal.
Qed.

Lemma strip_spec s :
  ∃ ws1 ws2, all_space ws1 = true ∧ all_space ws2 = true ∧ s = ws1 +:+ strip s +:+ ws2.
Proof.
  unfold strip. destruct (span is_space s) as [run rest] eqn:Hspan.
  destruct (rstrip_spec rest) as (ws2 & Hws2 & Hrest). exists run, ws2.
  split; [by apply span_run in Hspan|]. split; [done|].
  apply span_app in Hspan. cbn [snd]. by rewrite <- Hrest.
Qed.

Lemma strip_empty s : strip s = EmptyString ↔ all_space s = true.
Proof.
  split.
  - intros Hs. destruct (strip_spec s) as (ws1 & ws2 & H1 & H2 & Heq).
    rewrite Hs in Heq. rewrite Heq. unfold all_space in *.
    rewrite string_forall_app. change ("" +:+ ws2) with ws2. by rewrite H1, H2.
  - intros Hs. unfold strip.
    pose proof (span_all_space s EmptyString Hs) as Hspan.
    rewrite append_nil_r in Hspan. by rewrite Hspan.
Qed.

Lemma string_forall_strip f s : string_forall f s = true → string_forall f (strip s) = true.
Proof.
  destruct (strip_spec s) as (ws1 & ws2 & _ & _ & Heq). rewrite Heq at 1.
  rewrite !string_forall_app. by intros [_ [? _]%andb_true_iff]%andb_true_iff.
Qed.

Lemma tokenize_expression_trailing s ws :
  all_space ws = true → tokenize_expression (s +:+ ws) = tokenize_expression s.
Proof.
  intros Hws. destruct ws as [|c ws]; [by rewrite append_nil_r|].
  rewrite tokenize_expression_continued, (tokenize_expression_blank _ Hws).
  - destruct (tokenize_expression s); [|done]. simpl. by rewrite app_nil_r.
  - unfold all_space in Hws. simpl in *. by apply andb_true_iff in Hws as [? _].
Qed.

Lemma tokenize_expression_strip s :
  tokenize_expression (strip s) = tokenize_expression s.
Proof.
  destruct (strip_spec s) as (ws1 & ws2 & H1 & H2 & Heq).
  transitivity (tokenize_expression (ws1 +:+ strip s +:+ ws2)); [|by rewrite <- Heq].
  by rewrite tokenize_expression_leading, tokenize_expression_trailing.
Qed.

Lemma upper_empty s : upper s = EmptyString → s = EmptyString.
Proof. by destruct s. Qed.

Lemma alphabet_plain c :
  is_space c || mem_char c token_alphabet = true → plain c = true.
Proof. by destruct c as [[] [] [] [] [] [] [] []]. Qed.

Lemma tokenize_expression_statement str_upper line tokens :
  (∀ s, string_forall plain s = true → str_upper s = upper s) →
  tokenize_expression line = Ok tokens →
  str_upper (strip line) = upper (strip line) ∧
  tokenize_expression (str_upper (strip line)) = Ok tokens.
Proof.
  intros Hupper Htok.
  assert (str_upper (strip line) = upper (strip line)) as Heq.
  { apply Hupper, string_forall_strip.
    eapply string_forall_impl; [apply alphabet_plain|].
    by eapply tokenize_expression_alphabet. }
  split; [done|]. rewrite Heq. apply tokenize_expression_upper.
  by rewrite tokenize_expression_strip.
Qed.

Lemma evaluate_statement_tokens s1 s2 :
  tokenize_expression s1 = tokenize_expression s2 →
  evaluate_statement s1 = evaluate_statement s2.
Proof.
  intros Heq. unfold evaluate_statement, create_truth_table. by rewrite Heq.
Qed.

Lemma no_variables_vars_in_expr tokens :
  list_to_set (filter (.∈ variables_set) tokens) = (∅ : gset string) ↔
  vars_in_expr tokens = [].
Proof.
  rewrite vars_in_expr_filter. split.
  - intros Hempty. apply filter_keeps_none, Forall_forall. intros x Hx Hin.
    assert (x ∈ (list_to_set (filter (.∈ variables_set) tokens) : gset string)) as Hmem.
    { apply elem_of_list_to_set, list_elem_of_filter. split; [|done]. by apply in_variables. }
    rewrite Hempty in Hmem. set_solver.
  - intros Hnone. apply set_eq. intros x. split; [|set_solver].
    intros [Hvar Hin]%elem_of_list_to_set%list_elem_of_filter.
    assert (x ∈ filter (.∈ tokens) ["P"; "Q"; "R"]) as Hmem.
    { apply list_elem_of_filter. split; [done|]. by apply in_variables. }
    rewrite Hnone in Hmem. by apply elem_of_nil in Hmem.
Qed.

Lemma evaluate_statement_cases expression :
  match evaluate_statement expression with
  | NoValidVariables =>
      ∃ tokens, tokenize_expression expression = Ok tokens ∧ vars_in_expr tokens = []
  | ErrorInTokenizing msg =>
      ∃ c, msg = "Unexpected character: " +:+ String c EmptyString ∧
           c ∈ list_ascii_of_string expression
  | TruthTable (ErrorDuringEvaluation e) =>
      ∃ tokens, tokenize_expression expression = Ok tokens ∧ first_run tokens = Raise e
  | TruthTable (Table headers _ _) =>
      ∃ tokens, tokenize_expression expression = Ok tokens ∧
                vars_in_expr tokens ≠ [] ∧
                take (length (vars_in_expr tokens)) headers = vars_in_expr tokens
  | TruthTable _ | Escaped _ => False
  end.
Proof.
  unfold evaluate_statement.
  destruct (tokenize_expression expression) as [tokens|e] eqn:Htok.
  2:{ destruct (tokenize_expression_raises _ _ Htok) as (c & -> & Hc & _). by exists c. }
  destruct (decide _) as [Hempty|Hvars].
  { exists tokens. split; [done|]. by apply no_variables_vars_in_expr. }
  rewrite no_variables_vars_in_expr in Hvars.
  pose proof (create_truth_table_outcomes expression) as Hout.
  destruct (create_truth_table expression) as [|e|? ?|e|headers rows tautology] eqn:Htable;
    try done.
  - destruct Hout as (tokens' & Htok' & Hfirst). exists tokens'. by rewrite Htok in Htok'.
  - destruct Hout as [Hraise|(tokens' & final0 & Htok' & _ & Hnone & _)]; [congruence|].
    rewrite Htok in Htok'. by injection Htok' as <-.
  - exists tokens. split; [done|]. split; [done|].
    destruct (create_truth_table_inv _ _ _ _ _ Htok Htable) as (final0 & trace0 & _ & -> & _).
    by rewrite take_app_length.
Qed.

Lemma evaluate_statements_all statements :
  evaluate_statements statements = evaluate_statement <$> statements.
Proof.
  induction statements as [|expression more IH]; [done|]. csimpl.
  pose proof (evaluate_statement_cases expression) as Hcases.
  destruct (evaluate_statement expression) as [| | |[]]; simpl; try done; by rewrite IH.
Qed.

(** X15: no exception leaves the handling of a statement.  For every
    statement, [main_program] either reports a character that the
    tokenizer rejects, or reports that the statement has no variable, or
    calls [create_truth_table], which then prints a table whose first
    headers are the variables of the statement, or reports the error of
    its first evaluation.  The exception that [create_truth_table] lets
    escape on a statement without variable is never reached. *)
Theorem statement_never_escapes expression :
  match evaluate_statement expression with
  | NoValidVariables =>
      ∃ tokens, tokenize_expression expression = Ok tokens ∧ vars_in_expr tokens = []
  | ErrorInTokenizing msg =>
      ∃ c, msg = "Unexpected character: " +:+ String c EmptyString ∧
           c ∈ list_ascii_of_string expression
  | TruthTable (ErrorDuringEvaluation e) =>
      ∃ tokens, tokenize_expression expression = Ok tokens ∧ first_run tokens = Raise e
  | TruthTable (Table headers _ _) =>
      ∃ tokens, tokenize_expression expression = Ok tokens ∧
                vars_in_expr tokens ≠ [] ∧
                take (length (vars_in_expr tokens)) headers = vars_in_expr tokens
  | TruthTable _ | Escaped _ => False
  end.
Proof. apply evaluate_statement_cases. Qed.

(** X16: stripping does not change the tokens.  The tokenizer gives the
    same result, tokens or error, on a text and on the text without its
    leading and trailing whitespace. *)
Theorem tokenize_strip s :
  tokenize_expression (strip s) = tokenize_expression s.
Proof. apply tokenize_expression_strip. Qed.

(** X17: the statements of a file.  The blank lines of the file are
    skipped, and a line that the tokenizer accepts is handled, after
    stripping and upper-casing, as the line itself would be: the reports
    of choice 1 are, in order, those of the lines that are not blank. *)
Theorem file_statements_evaluate str_upper lines :
  (∀ s, string_forall plain s = true → str_upper s = upper s) →
  Forall2 (λ line r,
             ∀ tokens, tokenize_expression line = Ok tokens → r = evaluate_statement line)
    (filter (λ line, all_space line = false) lines)
    (evaluate_file str_upper (Some lines)).
Proof.
  intros Hupper. unfold evaluate_file. rewrite evaluate_statements_all.
  unfold read_statements_from_file.
  rewrite <- list_fmap_compose. apply Forall2_fmap_r.
  induction lines as [|line lines IH]; [constructor|].
  rewrite !filter_cons. destruct (decide (strip line ≠ "")) as [Hline|Hline].
  - rewrite decide_True by (rewrite <- not_true_iff_false; by rewrite <- strip_empty).
    constructor; [|done]. intros tokens Htok. simpl. apply evaluate_statement_tokens.
    destruct (tokenize_expression_statement _ _ _ Hupper Htok) as [_ ->]. done.
  - rewrite decide_False; [done|]. apply dec_stable in Hline.
    rewrite strip_empty in Hline. by rewrite Hline.
Qed.

Lemma file_statements_evaluate_witness :
  Forall2 (λ line r,
             ∀ tokens, tokenize_expression line = Ok tokens → r = evaluate_statement line)
    ["p -> q" +:+ String "010" ""; " P ^ ~P"]
    (evaluate_file upper (Some ["p -> q" +:+ String "010" ""; String "010" ""; " P ^ ~P"])).
Proof.
  by apply (file_statements_evaluate upper
              ["p -> q" +:+ String "010" ""; String "010" ""; " P ^ ~P"]).
Defined.

(** X18: the statement typed by the user.  A text of whitespace only is
    refused before it reaches the tokenizer; a text that the tokenizer
    accepts and that is not blank is handled, after stripping and
    upper-casing, as the text itself would be. *)
Theorem typed_statement_evaluates str_upper text :
  (∀ s, string_forall plain s = true → str_upper s = upper s) →
  (all_space text = true → evaluate_input str_upper text = NoStatementProvided) ∧
  (∀ tokens, all_space text = false → tokenize_expression text = Ok tokens →
             evaluate_input str_upper text = Evaluated (evaluate_statement text)).
Proof.
  intros Hupper. unfold evaluate_input. split.
  - intros Hblank%strip_empty. rewrite Hblank, Hupper by done. done.
  - intros tokens Hblank Htok.
    destruct (tokenize_expression_statement _ _ _ Hupper Htok) as [Heq Htok'].
    rewrite decide_False.
    + f_equal. apply evaluate_statement_tokens. by rewrite Htok'.
    + rewrite Heq. intros Hempty%upper_empty%strip_empty. congruence.
Qed.

Lemma typed_statement_evaluates_witness :
  evaluate_input upper "   " = NoStatementProvided ∧
  evaluate_input upper " p or ~q " = Evaluated (evaluate_statement " p or ~q ").
Proof.
  destruct (typed_statement_evaluates upper "   ") as [Hblank _]; [done|].
  destruct (typed_statement_evaluates upper " p or ~q ") as [_ Htyped]; [done|].
  split; [by apply Hblank|]. by eapply Htyped; [|vm_compute].
Defined.

(** ** The width of the printed lines *)

Lemma spaces_length n : String.length (spaces n) = n.
Proof. unfold spaces. induction n as [|n IH]; simpl; [done|]. by rewrite IH. Qed.

Lemma center_length s width :
  String.length (center s width) = (String.length s `max` width)%nat.
Proof.
  unfold center. destruct (Nat.leb_spec width (String.length s)) as [Hle|Hlt]; [lia|].
  rewrite !length_append, !spaces_length.
  pose proof (Nat.div_lt (width - String.length s) 2).
  destruct (Nat.odd (width - String.length s) && Nat.odd width); lia.
Qed.

Lemma join_length sep parts :
  String.length (join sep parts)
    = (sum_list_with String.length parts + String.length sep * (length parts - 1))%nat.
Proof.
  induction parts as [|part [|next more] IH]; [simpl; lia..|].
  change (join sep (part :: next :: more)) with (part +:+ sep +:+ join sep (next :: more)).
  rewrite !length_append, IH. simpl. lia.
Qed.

Lemma max_length_bound headers m :
  max_length headers = Ok m → Forall (λ header, String.length header ≤ m)%nat headers.
Proof.
  assert (∀ l, Forall (λ header, String.length header
                                  ≤ foldr Nat.max 0 (String.length <$> l))%nat l) as Hall.
  { intros l. induction l as [|x l IH]; constructor; csimpl; [lia|].
    eapply Forall_impl; [apply IH|]. simpl. lia. }
  unfold max_length. destruct headers as [|h headers]; [done|]. intros [= <-].
  exact (Hall (h :: headers)).
Qed.

Lemma header_line_length headers m :
  max_length headers = Ok m →
  String.length (header_line m headers) = rule_width m headers.
Proof.
  intros Hall%max_length_bound. unfold header_line, rule_width.
  rewrite join_length, length_fmap. simpl. f_equal.
  induction Hall as [|h headers Hh _ IH]; [done|]. csimpl.
  rewrite center_length, IH. lia.
Qed.

Lemma row_line_length m var_cells sub_cells :
  var_cells ≠ [] →
  String.length (row_line m var_cells sub_cells)
    = (sum_list_with (λ res, String.length (cell_text res) `max` m) (var_cells ++ sub_cells)
       + 3 * (length (var_cells ++ sub_cells) - 1))%nat.
Proof.
  intros Hvars. unfold row_line.
  induction sub_cells as [|res sub_cells IH] using rev_ind.
  - rewrite app_nil_r. simpl. rewrite join_length, length_fmap. simpl. f_equal.
    induction var_cells as [|value cells IHc]; [done|]. csimpl. rewrite center_length.
    destruct cells; [done|]. by rewrite IHc.
  - rewrite foldl_snoc, !length_append, IH, center_length.
    rewrite (app_assoc var_cells), !sum_list_with_app, !length_app.
    destruct var_cells; [done|]. simpl. lia.
Qed.

Lemma cells_width m (cells : list bool) :
  (m * length cells
     ≤ sum_list_with (λ res, String.length (cell_text res) `max` m) cells)%nat ∧
  (5 ≤ m → sum_list_with (λ res, String.length (cell_text res) `max` m) cells
            = m * length cells)%nat ∧
  (m < 4 → cells ≠ [] →
   m * length cells
     < sum_list_with (λ res, String.length (cell_text res) `max` m) cells)%nat.
Proof.
  induction cells as [|res cells (IH1 & IH2 & _)]; [simpl; split_and!; [lia|lia|done]|].
  assert (String.length (cell_text res) = 4 ∨ String.length (cell_text res) = 5)%nat
    as Hres by (destruct res; auto).
  simpl. split_and!.
  - lia.
  - intros ?. rewrite IH2 by done. lia.
  - intros ? _. lia.
Qed.

(** X19: the header line is as wide as the rules.  The line of the
    centred headers has exactly the number of characters of the rules
    printed above and below it. *)
Theorem header_line_as_wide_as_rules headers m :
  max_length headers = Ok m →
  String.length (header_line m headers) = rule_width m headers.
Proof. apply header_line_length. Qed.

Lemma header_line_as_wide_as_rules_witness :
  String.length (header_line 6 ["P"; "Q"; "P -> Q"]) = rule_width 6 ["P"; "Q"; "P -> Q"].
Proof. by apply header_line_as_wide_as_rules. Defined.

(** X20: the rows are aligned with the headers only when a header has
    five characters.  For a statement with a variable, no line of a row
    is narrower than the rules; the lines of the rows have the width of
    the rules when the longest header has at least five characters, and
    are all wider when it has fewer than four. *)
Theorem row_lines_width s tokens headers rows tautology m :
  tokenize_expression s = Ok tokens →
  vars_in_expr tokens ≠ [] →
  create_truth_table s = Table headers rows tautology →
  max_length headers = Ok m →
  Forall (λ row,
            let width := String.length (table_row_line m (length (vars_in_expr tokens)) row) in
            rule_width m headers ≤ width ∧
            (5 ≤ m → width = rule_width m headers) ∧
            (m < 4 → rule_width m headers < width))%nat rows.
Proof.
  intros Htok Hvars Htable Hm.
  pose proof (create_truth_table_row_lengths _ _ _ _ _ Htok Htable) as Hlen.
  destruct (create_truth_table_inv _ _ _ _ _ Htok Htable) as (_ & trace0 & _ & Hh & _).
  eapply Forall_impl; [exact Hlen|]. intros row Hrow. simpl.
  unfold table_row_line, rule_width.
  assert (length (vars_in_expr tokens) ≤ length row)%nat as Hk.
  { rewrite Hrow, Hh, length_app. lia. }
  rewrite row_line_length, take_drop, Hrow.
  2:{ intros Hnil%(f_equal length). rewrite length_take in Hnil.
      destruct (vars_in_expr tokens); [done|]. cbn [length] in *. lia. }
  assert (row ≠ []) as Hcells.
  { intros ->. destruct (vars_in_expr tokens); [done|]. cbn [length] in Hk. lia. }
  destruct (cells_width m row) as (H1 & H2 & H3). rewrite Hrow in H1, H2, H3.
  split; [lia|]. split; [intros ?; rewrite H2 by done; lia|].
  intros ?. specialize (H3 ltac:(done) Hcells). lia.
Qed.

Lemma row_lines_width_witness :
  Forall (λ row,
            let width := String.length (table_row_line 2 1 row) in
            rule_width 2 ["P"; "~P"] ≤ width ∧
            (5 ≤ 2 → width = rule_width 2 ["P"; "~P"]) ∧
            (2 < 4 → rule_width 2 ["P"; "~P"] < width))%nat
    [[false; true]; [true; false]].
Proof.
  by apply (row_lines_width "~P" ["NOT"; "P"] ["P"; "~P"] [[false; true]; [true; false]] false 2).
Defined.

(** ** Precedence and grouping *)

Lemma convert_step_connective_first c output :
  convert_step (connective_name c) output [] = Ok (output, [connective_name c]).
Proof. by destruct c. Qed.

Lemma convert_step_connective_second c1 c2 output :
  convert_step (connective_name c2) output [connective_name c1] =
    Ok (if (connective_level c2 <=? connective_level c1)%nat
        then (output ++ [connective_name c1], [connective_name c2])
        else (output, [connective_name c2; connective_name c1])).
Proof. by destruct c1, c2. Qed.

Lemma convert_step_connective_not c output :
  convert_step (connective_name c) output ["NOT"] =
    Ok (output ++ ["NOT"], [connective_name c]).
Proof. by destruct c. Qed.

Lemma convert_step_not_connective c output :
  convert_step "NOT" output [connective_name c] = Ok (output, ["NOT"; connective_name c]).
Proof. by destruct c. Qed.

Lemma drain_connective c output :
  drain [connective_name c] output = Ok (output ++ [connective_name c]).
Proof. by destruct c. Qed.

Lemma drain_connectives c1 c2 output :
  drain [connective_name c2; connective_name c1] output
    = Ok (output ++ [connective_name c2; connective_name c1]).
Proof. destruct c1, c2; simpl; by rewrite <- app_assoc. Qed.

Lemma drain_not_connective c output :
  drain ["NOT"; connective_name c] output = Ok (output ++ ["NOT"; connective_name c]).
Proof. destruct c; simpl; by rewrite <- app_assoc. Qed.

Lemma convert_two_connectives f g h c1 c2 :
  convert_to_postfix
    (parenthesized f ++ [connective_name c1] ++ parenthesized g
       ++ [connective_name c2] ++ parenthesized h)
  = Ok (rpn (if (connective_level c2 <=? connective_level c1)%nat
             then Conn c2 (Conn c1 f g) h
             else Conn c1 f (Conn c2 g h))).
Proof.
  unfold convert_to_postfix. rewrite convert_loop_parenthesized.
  cbn [app convert_loop]. rewrite convert_step_connective_first. cbn [bind fst snd].
  rewrite convert_loop_parenthesized.
  cbn [app convert_loop]. rewrite convert_step_connective_second.
  rewrite <- (app_nil_r (parenthesized h)).
  destruct (connective_level c2 <=? connective_level c1)%nat; cbn [bind fst snd];
    rewrite convert_loop_parenthesized; cbn [convert_loop bind fst snd].
  - rewrite drain_connective. cbn [rpn app]. by rewrite <- !app_assoc.
  - rewrite drain_connectives. cbn [rpn app]. by rewrite <- !app_assoc.
Qed.

Lemma convert_negations f g c :
  convert_to_postfix (["NOT"] ++ parenthesized f ++ [connective_name c] ++ parenthesized g)
    = Ok (rpn (Conn c (Neg f) g)) ∧
  convert_to_postfix (parenthesized f ++ [connective_name c; "NOT"] ++ parenthesized g)
    = Ok (rpn (Conn c f (Neg g))) ∧
  convert_to_postfix (["NOT"; "NOT"] ++ parenthesized f) = Ok (rpn (Neg (Neg f))).
Proof.
  unfold convert_to_postfix. split_and!.
  - cbn [app convert_loop]. change (convert_step "NOT" [] []) with (Ok ([] : list string, ["NOT"])).
    cbn [bind fst snd]. rewrite convert_loop_parenthesized.
    cbn [app convert_loop]. rewrite convert_step_connective_not. cbn [bind fst snd].
    rewrite <- (app_nil_r (parenthesized g)), convert_loop_parenthesized.
    cbn [convert_loop bind fst snd]. rewrite drain_connective.
    cbn [rpn app]. by rewrite <- !app_assoc.
  - rewrite convert_loop_parenthesized.
    cbn [app convert_loop]. rewrite convert_step_connective_first. cbn [bind fst snd].
    rewrite convert_step_not_connective. cbn [bind fst snd].
    rewrite <- (app_nil_r (parenthesized g)), convert_loop_parenthesized.
    cbn [convert_loop bind fst snd]. rewrite drain_not_connective.
    cbn [rpn app]. by rewrite <- !app_assoc.
  - cbn [app convert_loop]. change (convert_step "NOT" [] []) with (Ok ([] : list string, ["NOT"])).
    cbn [bind fst snd].
    change (convert_step "NOT" [] ["NOT"]) with (Ok ([] : list string, ["NOT"; "NOT"])).
    cbn [bind fst snd]. rewrite <- (app_nil_r (parenthesized f)), convert_loop_parenthesized.
    cbn [convert_loop bind fst snd]. simpl. by rewrite <- !app_assoc.
Qed.

(** X21: how two connectives group.  In an expression [f c1 g c2 h]
    without parentheses around the connectives, the converter applies
    [c1] first unless [c2] has a strictly higher level in the precedence
    table: connectives of the same level group to the left, and [AND] and
    [OR], which share a level, are applied before [IMPLIES] and [IFF]. *)
Theorem convert_groups_by_level f g h c1 c2 :
  convert_to_postfix
    (parenthesized f ++ [connective_name c1] ++ parenthesized g
       ++ [connective_name c2] ++ parenthesized h)
  = Ok (rpn (if (connective_level c2 <=? connective_level c1)%nat
             then Conn c2 (Conn c1 f g) h
             else Conn c1 f (Conn c2 g h))).
Proof. apply convert_two_connectives. Qed.

(** X22: a negation applies to the operand that follows it.  Before the
    first operand or after a connective, [NOT] negates the next operand
    only, whatever the connective; a negation of a negation is
    accepted. *)
Theorem convert_negation_binds_tightest f g c :
  convert_to_postfix (["NOT"] ++ parenthesized f ++ [connective_name c] ++ parenthesized g)
    = Ok (rpn (Conn c (Neg f) g)) ∧
  convert_to_postfix (parenthesized f ++ [connective_name c; "NOT"] ++ parenthesized g)
    = Ok (rpn (Conn c f (Neg g))) ∧
  convert_to_postfix (["NOT"; "NOT"] ++ parenthesized f) = Ok (rpn (Neg (Neg f))).
Proof. apply convert_negations. Qed.
